(** * dspy/adapters/vllm_adapter.py: the marker-based field codec of
      [ImageChatAdapter], embedded in Rocq.

    Layout: Python's text primitives; the values, exceptions and messages
    the module works with; the functions of the module; the same entry
    point over a store of objects; the notions the statements use; then the
    lemmas and the theorems. *)

From Stdlib Require Import List String Ascii Bool Arith Lia DecimalString.
Import ListNotations.
Local Open Scope string_scope.

(** ** Python text primitives

    A Python [str] is modelled as a Rocq [string] whose characters are the
    code points U+0000 to U+00FF; the three character classes below are
    CPython's tables restricted to that range. *)

Module Py.

Definition LF : ascii := ascii_of_nat 10.
Definition CR : ascii := ascii_of_nat 13.

(** [str.isspace] on one character: what [str.strip()] removes. *)
Definition isspace (c : ascii) : bool :=
  let n := nat_of_ascii c in
  (((9 <=? n) && (n <=? 13)) || ((28 <=? n) && (n <=? 32))
  || (n =? 133) || (n =? 160))%nat.

(** The line boundaries of [str.splitlines()]. *)
Definition is_linebreak (c : ascii) : bool :=
  let n := nat_of_ascii c in
  (((10 <=? n) && (n <=? 13)) || ((28 <=? n) && (n <=? 30)) || (n =? 133))%nat.

(** The class [\w] of [re] on a [str] pattern: alphanumeric or underscore. *)
Definition is_word (c : ascii) : bool :=
  let n := nat_of_ascii c in
  (((48 <=? n) && (n <=? 57)) || ((65 <=? n) && (n <=? 90)) || (n =? 95)
  || ((97 <=? n) && (n <=? 122))
  || (n =? 170) || (n =? 178) || (n =? 179) || (n =? 181) || (n =? 185)
  || (n =? 186) || ((188 <=? n) && (n <=? 190))
  || ((192 <=? n) && (n <=? 214)) || ((216 <=? n) && (n <=? 246))
  || (248 <=? n))%nat.

Fixpoint lstrip (s : string) : string :=
  match s with
  | "" => ""
  | String c rest => if isspace c then lstrip rest else s
  end.

Fixpoint rstrip (s : string) : string :=
  match s with
  | "" => ""
  | String c rest =>
      match rstrip rest with
      | "" => if isspace c then "" else String c ""
      | kept => String c kept
      end
  end.

(** [s.strip()] *)
Definition strip (s : string) : string := rstrip (lstrip s).

(** [sep.join(parts)] *)
Fixpoint join (sep : string) (parts : list string) : string :=
  match parts with
  | [] => ""
  | [p] => p
  | p :: rest => p ++ sep ++ join sep rest
  end.

(** Puts one more character in front of the line being read. *)
Definition extend_first (c : ascii) (lines : list string) : list string :=
  match lines with
  | [] => [String c ""]
  | l :: rest => String c l :: rest
  end.

(** [s.splitlines()]: a CR LF pair is one boundary, the boundaries are not
    kept, and a boundary at the very end opens no further line. *)
Fixpoint splitlines (s : string) : list string :=
  match s with
  | "" => []
  | String c rest =>
      if is_linebreak c then
        match rest with
        | String c' rest' =>
            if (c =? CR)%char && (c' =? LF)%char
            then "" :: splitlines rest'
            else "" :: splitlines rest
        | "" => [""]
        end
      else extend_first c (splitlines rest)
  end.

(** [needle in hay] on strings. *)
Fixpoint contains (needle hay : string) : bool :=
  prefix needle hay
  || match hay with
     | "" => false
     | String _ rest => contains needle rest
     end.

(** [str(n)] for a natural number. *)
Definition str_of_nat (n : nat) : string :=
  NilEmpty.string_of_uint (Nat.to_uint n).

(** [x in xs] on a list of names. *)
Definition mem (x : string) (xs : list string) : bool :=
  existsb (String.eqb x) xs.

(** *** [dict]: insertion-ordered, keys pairwise distinct *)

Definition dict (V : Type) : Type := list (string * V).

Definition keys {V} (d : dict V) : list string := map fst d.

(** [k in d] *)
Definition dict_mem {V} (k : string) (d : dict V) : bool := mem k (keys d).

(** [d.get(k)] *)
Fixpoint dict_get {V} (d : dict V) (k : string) : option V :=
  match d with
  | [] => None
  | (k', v) :: rest => if String.eqb k k' then Some v else dict_get rest k
  end.

(** [d[k] = v]: a present key keeps its place, a new key goes last. *)
Fixpoint dict_set {V} (d : dict V) (k : string) (v : V) : dict V :=
  match d with
  | [] => [(k, v)]
  | (k', v') :: rest =>
      if String.eqb k k' then (k', v) :: rest else (k', v') :: dict_set rest k v
  end.

(** [a == b] on two key views: equality as sets. *)
Definition keys_eq (a b : list string) : bool :=
  forallb (fun k => mem k b) a && forallb (fun k => mem k a) b.

(** [base64.b64encode(payload).decode('utf-8')] *)
Definition b64_alphabet : string :=
  "ABCDEFGHIJKLMNOPQRSTUVWXYZabcdefghijklmnopqrstuvwxyz0123456789+/".

Definition b64_char (n : nat) : ascii :=
  match String.get n b64_alphabet with
  | Some c => c
  | None => "="%char
  end.

Fixpoint b64encode (payload : string) : string :=
  match payload with
  | "" => ""
  | String a "" =>
      let x := nat_of_ascii a in
      String (b64_char (x / 4)) (String (b64_char (x mod 4 * 16)) "==")
  | String a (String b "") =>
      let x := nat_of_ascii a in
      let y := nat_of_ascii b in
      String (b64_char (x / 4))
        (String (b64_char (x mod 4 * 16 + y / 16))
           (String (b64_char (y mod 16 * 4)) "="))
  | String a (String b (String c rest)) =>
      let x := nat_of_ascii a in
      let y := nat_of_ascii b in
      let z := nat_of_ascii c in
      String (b64_char (x / 4))
        (String (b64_char (x mod 4 * 16 + y / 16))
           (String (b64_char (y mod 16 * 4 + z / 64))
              (String (b64_char (z mod 64)) (b64encode rest))))
  end.

End Py.

Import Py.

(** ** Values, exceptions, results *)

(** A Python object as this module observes it: a [str]; a PIL
    [Image.Image], seen through [str(image)] and through the bytes that
    [image.save(buffer, format="PNG")] writes ([None] when saving raises);
    any other object (None, numbers, lists ...), seen through its truth
    value and its [str()]. *)
Inductive value : Type :=
| VStr (s : string)
| VImage (shown : string) (png : option string)
| VOther (truth : bool) (shown : string).

(** [None] *)
Definition VNone : value := VOther false "None".

(** [bool(v)] *)
Definition truthy (v : value) : bool :=
  match v with
  | VStr s => negb (String.eqb s "")
  | VImage _ _ => true
  | VOther t _ => t
  end.

(** [f"{v}"] *)
Definition py_str (v : value) : string :=
  match v with
  | VStr s => s
  | VImage shown _ => shown
  | VOther _ shown => shown
  end.

Inductive exn : Type :=
| ValueError_expected (expected got : list string)
    (* f"Expected {expected} but got {got}" *)
| ValueError_encode (field : string)
    (* f"Failed to encode image for field {k}" *)
| ValueError_image_type
    (* "Unsupported image type. Must be PIL Image, file path, or URL." *)
| KeyError (key : string)
| TypeError
    (* an argument is no mapping, no sequence or no signature *)
| NameError
    (* the name Image is unbound: the PIL import failed *)
| OSError
    (* open(), read() or save() failed *)
| RequestError.
    (* requests.get raised, or raise_for_status() did *)

Inductive result (A : Type) : Type :=
| Ok (a : A)
| Raise (e : exn).
Arguments Ok {A} a.
Arguments Raise {A} e.

Definition bind {A B} (r : result A) (k : A -> result B) : result B :=
  match r with
  | Ok a => k a
  | Raise e => Raise e
  end.

Notation "x <- r ;; k" := (bind r (fun x => k))
  (at level 61, r at next level, right associativity).

Definition is_ok {A} (r : result A) : bool :=
  match r with
  | Ok _ => true
  | Raise _ => false
  end.

(** [d[k]] *)
Definition getitem {V} (d : dict V) (k : string) : result V :=
  match dict_get d k with
  | Some v => Ok v
  | None => Raise (KeyError k)
  end.

(** What lies outside the module: whether PIL could be imported, the file
    system and the network. [read_file] and [http_get] give [None] when the
    call raises. *)
Record world : Type := {
  pil_installed : bool;
  isfile : string -> bool;
  read_file : string -> option string;
  http_get : string -> option string
}.

(** ** The signature a caller passes in *)

Record FieldSpec : Type := {
  annotation_name : string;   (* v.annotation.__name__ *)
  desc : string               (* v.json_schema_extra['desc'] *)
}.

Record Signature : Type := {
  input_fields : dict FieldSpec;
  output_fields : dict FieldSpec;
  instructions : string
}.

(** ** Messages *)

Inductive part : Type :=
| ImageUrl (url : string)   (* {"type": "image_url", "image_url": {"url": url}} *)
| Text (text : string).     (* {"type": "text", "text": text} *)

Inductive role : Type := system | user | assistant.

Inductive content : Type :=
| Plain (text : string)
| Parts (parts : list part).

Record message : Type := {
  msg_role : role;
  msg_content : content
}.

Definition mk_message (r : role) (c : content) : message :=
  {| msg_role := r; msg_content := c |}.

(** ** The module *)

Definition NL : string := String LF "".

(** *** [field_header_pattern]

    [re.compile(r'\[\[\[\[ #### (\w+) #### \]\]\]\]')], used only through
    [field_header_pattern.match(s)], which anchors the pattern at the start
    of [s] and nowhere else, and [match.group(1)]. [\w+] is greedy, and the
    character after it must be a space, which is no word character: only
    the longest run of word characters can make the pattern match. *)

Definition header_open : string := "[[[[ #### ".
Definition header_close : string := " #### ]]]]".

Fixpoint strip_prefix (p s : string) : option string :=
  match p, s with
  | "", _ => Some s
  | String a p', String b s' => if (a =? b)%char then strip_prefix p' s' else None
  | String _ _, "" => None
  end.

(** The longest prefix of word characters, and what follows it. *)
Fixpoint span_word (s : string) : string * string :=
  match s with
  | "" => ("", "")
  | String c rest =>
      if is_word c
      then let (w, tl) := span_word rest in (String c w, tl)
      else ("", s)
  end.

(** [field_header_pattern.match(s)], giving [match.group(1)]. *)
Definition field_header_pattern_match (s : string) : option string :=
  match strip_prefix header_open s with
  | None => None
  | Some after_open =>
      let (name, after_name) := span_word after_open in
      match name with
      | "" => None
      | _ => if prefix header_close after_name then Some name else None
      end
  end.

(** *** [ImageChatAdapter.parse] *)

(** [sections[-1][1].append(line)] *)
Fixpoint append_to_last (sections : list (option string * list string))
    (line : string) : list (option string * list string) :=
  match sections with
  | [] => []
  | [(k, v)] => [(k, (v ++ [line])%list)]
  | s :: rest => s :: append_to_last rest line
  end.

(** The body of the loop over [completion.splitlines()]. *)
Definition scan_line (sections : list (option string * list string))
    (line : string) : list (option string * list string) :=
  match field_header_pattern_match (strip line) with
  | Some name => (sections ++ [(Some name, [])])%list
  | None => append_to_last sections line
  end.

(** [sections] after the first loop. *)
Definition scan (completion : string) : list (option string * list string) :=
  fold_left scan_line (splitlines completion) [(None, [])].

(** [(k, '\n'.join(v).strip())] *)
Definition join_section (kv : option string * list string)
  : option string * string :=
  (fst kv, strip (join NL (snd kv))).

(** [sections] after [[(k, '\n'.join(v).strip()) for k, v in sections]]. *)
Definition parse_sections (completion : string)
  : list (option string * string) :=
  map join_section (scan completion).

(** The body of the loop that fills [fields]; the key [None] of the opening
    section is a member of no dictionary of names. *)
Definition collect_section (signature : Signature) (fields : dict string)
    (kv : option string * string) : dict string :=
  match fst kv with
  | Some k =>
      if negb (dict_mem k fields) && dict_mem k (output_fields signature)
      then dict_set fields k (snd kv)
      else fields
  | None => fields
  end.

(** [fields] after the second loop. *)
Definition collect_fields (signature : Signature)
    (sections : list (option string * string)) : dict string :=
  fold_left (collect_section signature) sections [].

Definition parse (signature : Signature) (completion : string)
  : result (dict string) :=
  let sections := parse_sections completion in
  let fields := collect_fields signature sections in
  if negb (keys_eq (keys fields) (keys (output_fields signature)))
  then Raise (ValueError_expected (keys (output_fields signature)) (keys fields))
  else Ok fields.

(** *** [format_fields] *)

Definition field_block (kv : string * value) : string :=
  header_open ++ fst kv ++ header_close ++ NL ++ py_str (snd kv).

Definition format_fields (fields : dict value) : string :=
  strip (join (NL ++ NL) (map field_block fields)).

(** *** [encode_image] and [encode_image_base64_from_url] *)

Definition encode_image_base64_from_url (w : world) (image_url : string)
  : result string :=
  match http_get w image_url with
  | Some body => Ok (b64encode body)
  | None => Raise RequestError
  end.

Definition encode_image (w : world) (image : value) : result string :=
  if negb (pil_installed w) then Raise NameError
  else
    match image with
    | VImage _ png =>
        match png with
        | Some buffered => Ok (b64encode buffered)
        | None => Raise OSError
        end
    | VStr path =>
        if isfile w path then
          match read_file w path with
          | Some bytes => Ok (b64encode bytes)
          | None => Raise OSError
          end
        else encode_image_base64_from_url w path
    | VOther _ _ => Raise ValueError_image_type
    end.

(** *** [format_chat_turn] *)

(** [{k: values[k] for k in field_names if 'image' not in k}] *)
Fixpoint text_fields (field_names : list string) (values : dict value)
    (acc : dict value) : result (dict value) :=
  match field_names with
  | [] => Ok acc
  | k :: rest =>
      if negb (contains "image" k)
      then v <- getitem values k ;; text_fields rest values (dict_set acc k v)
      else text_fields rest values acc
  end.

Definition data_url_prefix : string := "data:image/jpeg;base64,".

(** The loop [for k in field_names] over [request]. *)
Fixpoint image_parts (w : world) (field_names : list string)
    (values : dict value) (request : list part) : result (list part) :=
  match field_names with
  | [] => Ok request
  | k :: rest =>
      if contains "image" k then
        image <- getitem values k ;;
        if negb (truthy image) then image_parts w rest values request
        else
          image_base64 <- encode_image w image ;;
          if negb (image_base64 =? "")
          then image_parts w rest values
                 (request ++ [ImageUrl (data_url_prefix ++ image_base64)])%list
          else Raise (ValueError_encode k)
      else image_parts w rest values request
  end.

Definition format_chat_turn (w : world) (field_names : list string)
    (values : dict value) : result (list part) :=
  if negb (forallb (fun k => dict_mem k values) field_names)
  then Raise (ValueError_expected field_names (keys values))
  else
    selected <- text_fields field_names values [] ;;
    let text_content := format_fields selected in
    request <- image_parts w field_names values [] ;;
    Ok (request ++ [Text text_content])%list.

(** *** [enumerate_fields] *)

Definition enumerate_part (idx : nat) (k : string) (v : FieldSpec) : string :=
  (str_of_nat (idx + 1) ++ ". `" ++ k ++ "`")
  ++ (" (" ++ annotation_name v ++ ")")
  ++ (if negb (desc v =? "${" ++ k ++ "}") then ": " ++ desc v else "").

Fixpoint enumerate_parts (idx : nat) (fields : dict FieldSpec) : list string :=
  match fields with
  | [] => []
  | (k, v) :: rest => enumerate_part idx k v :: enumerate_parts (S idx) rest
  end.

Definition enumerate_fields (fields : dict FieldSpec) : string :=
  strip (join NL (enumerate_parts 0 fields)).

(** *** [prepare_instructions] *)

(** [{f : f"{{{f}}}" for f in fields}] *)
Definition placeholders (fields : dict FieldSpec) : dict value :=
  map (fun f => (f, VStr ("{" ++ f ++ "}"))) (keys fields).

Definition prepare_instructions (signature : Signature) : string :=
  let objective :=
    join (NL ++ "        ") ("" :: splitlines (instructions signature)) in
  let parts :=
    [ "Your input fields are:" ++ NL
        ++ enumerate_fields (input_fields signature);
      "Your output fields are:" ++ NL
        ++ enumerate_fields (output_fields signature);
      "All interactions will be structured in the following way, with the appropriate values filled in.";
      format_fields (placeholders (input_fields signature));
      format_fields (placeholders (output_fields signature));
      format_fields [("completed", VStr "")];
      "You will receive some input fields in each interaction. "
        ++ "Respond only with the corresponding output fields, starting with the field "
        ++ join ", then "
             (map (fun f => "`" ++ f ++ "`") (keys (output_fields signature)))
        ++ ", and then ending with the marker for `completed`.";
      "In adhering to this structure, your objective is: " ++ objective ] in
  strip (join (NL ++ NL) parts).

(** *** [ImageChatAdapter.format] *)

(** The loop [for demo in demos] over [messages]. *)
Fixpoint format_demos (w : world) (signature : Signature)
    (demos : list (dict value)) (messages : list message)
  : result (list message) :=
  match demos with
  | [] => Ok messages
  | demo :: rest =>
      let output_fields_ :=
        (keys (output_fields signature) ++ ["completed"])%list in
      let demo_ := dict_set demo "completed" (VStr "") in
      u <- format_chat_turn w (keys (input_fields signature)) demo ;;
      a <- format_chat_turn w output_fields_ demo_ ;;
      format_demos w signature rest
        (messages ++ [mk_message user (Parts u);
                      mk_message assistant (Parts a)])%list
  end.

Definition format (w : world) (signature : Signature)
    (demos : list (dict value)) (inputs : dict value)
  : result (list message) :=
  let messages :=
    [mk_message system (Plain (prepare_instructions signature))] in
  messages <- format_demos w signature demos messages ;;
  u <- format_chat_turn w (keys (input_fields signature)) inputs ;;
  Ok (messages ++ [mk_message user (Parts u)])%list.

(** ** [format] over the caller's objects

    Python passes [signature], [demos], each [demo] and [inputs] by
    reference. To speak about what a call leaves behind, the objects live in
    a store and the arguments are addresses. [format] reads its arguments
    and builds one new dictionary per demo, [{**demo, 'completed': ''}];
    [format_chat_turn] only reads the dictionary it is given ([set(values)],
    [values[k]], [values.keys()]), so it is run on the dictionary found at the
    address. *)

Definition address : Type := nat.

Inductive object : Type :=
| ODict (d : dict value)
| OList (items : list address)
| OSignature (s : Signature).

Definition store : Type := list object.

Definition load (st : store) (a : address) : option object := nth_error st a.

(** A new object, at an address not in use. *)
Definition alloc (st : store) (o : object) : store * address :=
  ((st ++ [o])%list, List.length st).

Definition format_chat_turn_at (w : world) (st : store)
    (field_names : list string) (values : address) : result (list part) :=
  match load st values with
  | Some (ODict d) => format_chat_turn w field_names d
  | _ => Raise TypeError
  end.

Fixpoint format_demos_at (w : world) (signature : Signature)
    (demos : list address) (st : store) (messages : list message)
  : store * result (list message) :=
  match demos with
  | [] => (st, Ok messages)
  | demo :: rest =>
      let output_fields_ :=
        (keys (output_fields signature) ++ ["completed"])%list in
      match load st demo with
      | Some (ODict d) =>
          let (st1, demo_) :=
            alloc st (ODict (dict_set d "completed" (VStr ""))) in
          match format_chat_turn_at w st1 (keys (input_fields signature)) demo with
          | Raise e => (st1, Raise e)
          | Ok u =>
              match format_chat_turn_at w st1 output_fields_ demo_ with
              | Raise e => (st1, Raise e)
              | Ok a =>
                  format_demos_at w signature rest st1
                    (messages ++ [mk_message user (Parts u);
                                  mk_message assistant (Parts a)])%list
              end
          end
      | _ => (st, Raise TypeError)
      end
  end.

Definition format_at (w : world) (st : store)
    (signature demos inputs : address) : store * result (list message) :=
  match load st signature, load st demos with
  | Some (OSignature sg), Some (OList ds) =>
      let messages := [mk_message system (Plain (prepare_instructions sg))] in
      match format_demos_at w sg ds st messages with
      | (st1, Raise e) => (st1, Raise e)
      | (st1, Ok messages) =>
          match format_chat_turn_at w st1 (keys (input_fields sg)) inputs with
          | Raise e => (st1, Raise e)
          | Ok u => (st1, Ok (messages ++ [mk_message user (Parts u)])%list)
          end
      end
  | _, _ => (st, Raise TypeError)
  end.

(** The dictionaries behind a list of addresses, when all are dictionaries. *)
Fixpoint load_dicts (st : store) (ds : list address)
  : option (list (dict value)) :=
  match ds with
  | [] => Some []
  | a :: rest =>
      match load st a, load_dicts st rest with
      | Some (ODict d), Some tl => Some (d :: tl)
      | _, _ => None
      end
  end.

(** ** Vocabulary of the statements

    Nothing below belongs to the module: these are the notions the
    theorems are stated with. *)

(** *** Markers and names *)

(** The marker line of a field. *)
Definition marker (name : string) : string :=
  header_open ++ name ++ header_close.

(** Word characters only. *)
Fixpoint all_word (s : string) : bool :=
  match s with
  | "" => true
  | String c rest => is_word c && all_word rest
  end.

(** A field name the pattern's group can capture: one word character or
    more. *)
Definition is_name (s : string) : bool :=
  negb (s =? "") && all_word s.

(** What follows the longest run of word characters is no word character. *)
Definition word_stops (s : string) : bool :=
  match s with
  | "" => true
  | String c _ => negb (is_word c)
  end.

(** Modelled from the spec's words, for comparison with
    [field_header_pattern_match]: the marker pattern anchored at both ends,
    [^\[\[\[\[ #### (\w+) #### \]\]\]\]$]. *)
Definition full_line_pattern_match (s : string) : option string :=
  match strip_prefix header_open s with
  | None => None
  | Some after_open =>
      let (name, after_name) := span_word after_open in
      match name with
      | "" => None
      | _ => if after_name =? header_close then Some name else None
      end
  end.

(** *** Sections read by [parse] *)

(** The names of the sections that carry one, in order. *)
Fixpoint section_names (sections : list (option string * string))
  : list string :=
  match sections with
  | [] => []
  | (Some k, _) :: rest => k :: section_names rest
  | (None, _) :: rest => section_names rest
  end.

(** The recovered names: the anonymous section and the sections without an
    expected name dropped. *)
Definition recovered_names (signature : Signature) (completion : string)
  : list string :=
  filter (fun k => dict_mem k (output_fields signature))
    (section_names (parse_sections completion)).

(** The content of the first section called [name]. *)
Fixpoint first_section (name : string)
    (sections : list (option string * string)) : option string :=
  match sections with
  | [] => None
  | (Some k, v) :: rest =>
      if String.eqb name k then Some v else first_section name rest
  | (None, _) :: rest => first_section name rest
  end.

(** A line that opens no section. *)
Definition no_header (line : string) : Prop :=
  field_header_pattern_match (strip line) = None.

(** *** Values that come back unchanged *)

(** No line boundary at all. *)
Fixpoint no_breaks (s : string) : bool :=
  match s with
  | "" => true
  | String c rest => negb (is_linebreak c) && no_breaks rest
  end.

(** No line boundary other than LF. *)
Fixpoint only_LF_breaks (s : string) : bool :=
  match s with
  | "" => true
  | String c rest =>
      (negb (is_linebreak c) || (c =? LF)%char) && only_LF_breaks rest
  end.

(** Some line of [v] would open a section when read back. *)
Definition has_header_line (v : string) : bool :=
  existsb
    (fun l => match field_header_pattern_match (strip l) with
              | Some _ => true
              | None => false
              end)
    (splitlines v).

(** A value that [parse] gives back as it is: trimmed already, its lines
    separated by LF only, none of them read as a marker. *)
Definition plain_value (v : string) : bool :=
  (strip v =? v) && only_LF_breaks v && negb (has_header_line v).

(** A field that survives the round trip: a name the pattern captures and
    a plain value. *)
Definition plain_field (kv : string * string) : bool :=
  is_name (fst kv) && plain_value (snd kv).

(** A dictionary of texts, as the dictionary of [str] objects it is. *)
Definition as_values (fields : dict string) : dict value :=
  map (fun kv => (fst kv, VStr (snd kv))) fields.

(** The sections [parse] reads for a dictionary of fields. *)
Definition as_sections (fields : dict string)
  : list (option string * string) :=
  map (fun kv => (Some (fst kv), snd kv)) fields.

(** The text of [format_fields] before the final [strip()]. *)
Definition rendered (fields : dict string) : string :=
  join (NL ++ NL) (map field_block (as_values fields)).

(** *** The parts of a turn *)

(** [set(values).issuperset(set(field_names))], as a proposition. *)
Definition covers (values : dict value) (field_names : list string) : Prop :=
  forall k, In k field_names -> In k (keys values).

(** [[(k, values[k]) for k in names]], over the names [values] has. *)
Definition lookup_all (values : dict value) (names : list string)
  : dict value :=
  flat_map (fun k => match dict_get values k with
                     | Some v => [(k, v)]
                     | None => []
                     end) names.

(** The image fields that carry an image: the fields whose name contains
    "image" and whose value is truthy, in [field_names] order. *)
Definition supplied_images (field_names : list string) (values : dict value)
  : list (string * value) :=
  filter (fun kv => truthy (snd kv))
    (lookup_all values (filter (contains "image") field_names)).

(** Each name once, at its first place. *)
Fixpoint distinct (names : list string) : list string :=
  match names with
  | [] => []
  | k :: rest => k :: filter (fun x => negb (String.eqb x k)) (distinct rest)
  end.

(** The fields of the text part: the fields whose name does not contain
    "image", in [field_names] order, with their values. *)
Definition non_image_fields (field_names : list string)
    (values : dict value) : dict value :=
  lookup_all values
    (distinct (filter (fun k => negb (contains "image" k)) field_names)).

(** Encoding every supplied image in turn; the first failure ends it. *)
Fixpoint encode_each (w : world) (images : list (string * value))
  : result (list string) :=
  match images with
  | [] => Ok []
  | (k, image) :: rest =>
      image_base64 <- encode_image w image ;;
      if image_base64 =? "" then Raise (ValueError_encode k)
      else tl <- encode_each w rest ;; Ok (image_base64 :: tl)
  end.

(** The image part of [format_chat_turn] for an encoded image. *)
Definition image_part (image_base64 : string) : part :=
  ImageUrl (data_url_prefix ++ image_base64).

(** The preconditions of one turn: the values cover the field names, and
    every supplied image encodes to a non-empty string. *)
Definition turn_ready (w : world) (field_names : list string)
    (values : dict value) : Prop :=
  covers values field_names
  /\ is_ok (encode_each w (supplied_images field_names values)) = true.

(** The preconditions of the two turns of a demo. *)
Definition demo_ready (w : world) (signature : Signature)
    (demo : dict value) : Prop :=
  turn_ready w (keys (input_fields signature)) demo
  /\ turn_ready w (keys (output_fields signature) ++ ["completed"])%list
       (dict_set demo "completed" (VStr "")).

(** *** The catalog of fields *)

(** The line of the catalog for field [k], numbered [n]. *)
Definition catalog_line (n : nat) (k : string) (v : FieldSpec) : string :=
  str_of_nat n ++ ". `" ++ k ++ "` (" ++ annotation_name v ++ ")"
  ++ (if desc v =? "${" ++ k ++ "}" then "" else ": " ++ desc v).

(** *** New objects in the store *)

(** A dictionary made by [{**demo, 'completed': ''}]. *)
Definition completed_copy (o : object) : Prop :=
  exists d, o = ODict (dict_set d "completed" (VStr "")).

(** *** Examples the theorems are run on *)

(** A field annotated [str]. *)
Definition str_field (description : string) : FieldSpec :=
  {| annotation_name := "str"; desc := description |}.

(** One input field [question], one output field [answer]. *)
Definition qa_signature : Signature :=
  {| input_fields := [("question", str_field "${question}")];
     output_fields := [("answer", str_field "${answer}")];
     instructions := "Answer the question." |}.

(** A signature expecting the two fields, in another order. *)
Definition two_fields_signature : Signature :=
  {| input_fields := [];
     output_fields := [("answer", str_field "${answer}");
                       ("reasoning", str_field "${reasoning}")];
     instructions := "" |}.

(** A world with PIL, no file and no network. *)
Definition offline : world :=
  {| pil_installed := true;
     isfile := fun _ => false;
     read_file := fun _ => None;
     http_get := fun _ => None |}.

(** A completion with two sections for [answer]. *)
Definition twice_answered : string :=
  marker "answer" ++ NL ++ "4" ++ NL ++ marker "answer" ++ NL ++ "5".

(** Two fields, the first with a value of three lines. *)
Definition two_fields : dict string :=
  [("reasoning", "2 and 2" ++ NL ++ NL ++ "  make 4"); ("answer", "4")].

(** A PIL image whose PNG encoding is the four bytes below. *)
Definition tiny_png : string := String (ascii_of_nat 137) "PNG".
Definition tiny_image : value := VImage "<PIL.Image.Image>" (Some tiny_png).

(** The example of the specification: one demo, one live question. *)
Definition qa_demo : dict value :=
  [("question", VStr "2+2?"); ("answer", VStr "4")].
Definition qa_inputs : dict value := [("question", VStr "3+3?")].

(** The caller's objects of the specification's example: the signature at
    0, the demo at 1, the inputs at 2, the sequence of demos at 3. *)
Definition qa_store : store :=
  [OSignature qa_signature; ODict qa_demo; ODict qa_inputs; OList [1]].

(** *** Further notions: lines, line endings, the turns of a demo *)

(** A line that opens a section. *)
Definition is_header (line : string) : bool :=
  match field_header_pattern_match (strip line) with
  | Some _ => true
  | None => false
  end.

(** The names captured on the header lines, in order. *)
Definition header_names (lines : list string) : list string :=
  flat_map (fun l => match field_header_pattern_match (strip l) with
                     | Some name => [name]
                     | None => []
                     end) lines.

(** The same text with every LF written as CR LF. *)
Fixpoint to_crlf (s : string) : string :=
  match s with
  | "" => ""
  | String c rest =>
      if (c =? LF)%char then String CR (String LF (to_crlf rest))
      else String c (to_crlf rest)
  end.

(** The two turns [format] builds for one demo. *)
Definition demo_turns (w : world) (signature : Signature)
    (demo : dict value) : result (list part * list part) :=
  u <- format_chat_turn w (keys (input_fields signature)) demo ;;
  a <- format_chat_turn w
         (keys (output_fields signature) ++ ["completed"])%list
         (dict_set demo "completed" (VStr "")) ;;
  Ok (u, a).

(** The two messages of a demo, from its two turns. *)
Definition demo_messages (turns : list part * list part) : list message :=
  [mk_message user (Parts (fst turns));
   mk_message assistant (Parts (snd turns))].

(** One computation after the other over a list; the first error ends it. *)
Fixpoint traverse {A B} (f : A -> result B) (xs : list A) : result (list B) :=
  match xs with
  | [] => Ok []
  | x :: rest => y <- f x ;; ys <- traverse f rest ;; Ok (y :: ys)
  end.

(** A world where the PIL import failed; every path is a readable file. *)
Definition without_pil : world :=
  {| pil_installed := false;
     isfile := fun _ => true;
     read_file := fun _ => Some tiny_png;
     http_get := fun _ => None |}.

(** *** Tactics *)

(** A fact about one character, checked on each of the 256. *)
Ltac by_cases_on_char c :=
  destruct c as [[] [] [] [] [] [] [] []]; vm_compute; congruence.

(** ** Lemmas: strings *)

Lemma append_nil_r (s : string) : s ++ "" = s.
Proof. induction s as [|c s IH]; simpl; [reflexivity | now rewrite IH]. Qed.

Lemma append_assoc (a b c : string) : (a ++ b) ++ c = a ++ (b ++ c).
Proof. induction a as [|x a IH]; simpl; [reflexivity | now rewrite IH]. Qed.

Lemma append_inv_head (p a b : string) : p ++ a = p ++ b -> a = b.
Proof.
  induction p as [|x p IH]; simpl; intros H; [exact H|].
  injection H as H. now apply IH.
Qed.

Lemma prefix_append (p r : string) : prefix p (p ++ r) = true.
Proof.
  induction p as [|x p IH]; simpl; [now destruct r|].
  destruct (ascii_dec x x) as [_|N]; [exact IH | now elim N].
Qed.

Lemma prefix_inv (p s : string) :
  prefix p s = true -> exists r, s = p ++ r.
Proof.
  revert s. induction p as [|x p IH]; intros s H.
  - now exists s.
  - destruct s as [|y s]; simpl in H; [discriminate|].
    destruct (ascii_dec x y) as [->|]; [|discriminate].
    destruct (IH _ H) as [r ->]. now exists r.
Qed.

Lemma strip_prefix_append (p r : string) : strip_prefix p (p ++ r) = Some r.
Proof.
  induction p as [|x p IH]; simpl; [now destruct r|].
  now rewrite Ascii.eqb_refl.
Qed.

Lemma strip_prefix_inv (p s r : string) :
  strip_prefix p s = Some r -> s = p ++ r.
Proof.
  revert s. induction p as [|x p IH]; intros s H.
  - destruct s; simpl in H; injection H as <-; reflexivity.
  - destruct s as [|y s]; simpl in H; [discriminate|].
    destruct (Ascii.eqb_spec x y) as [->|]; [|discriminate].
    simpl. f_equal. now apply IH.
Qed.

Lemma span_word_spec (s w tl : string) :
  span_word s = (w, tl) ->
  s = w ++ tl /\ all_word w = true /\ word_stops tl = true.
Proof.
  revert w tl. induction s as [|c s IH]; simpl; intros w tl H.
  - now injection H as <- <-.
  - destruct (is_word c) eqn:Hc.
    + destruct (span_word s) as [w' tl'] eqn:Hs.
      injection H as <- <-.
      destruct (IH _ _ eq_refl) as (-> & Hw & Ht).
      simpl. now rewrite Hc, Hw.
    + injection H as <- <-. simpl. now rewrite Hc.
Qed.

Lemma span_word_append (w tl : string) :
  all_word w = true -> word_stops tl = true -> span_word (w ++ tl) = (w, tl).
Proof.
  intros Hw Ht. induction w as [|c w IH]; simpl in *.
  - destruct tl as [|c tl]; simpl in *; [reflexivity|].
    now destruct (is_word c).
  - apply andb_true_iff in Hw as [Hc Hw].
    now rewrite Hc, (IH Hw).
Qed.

Lemma is_name_inv (name : string) :
  is_name name = true -> name <> "" /\ all_word name = true.
Proof.
  unfold is_name. intros H. apply andb_true_iff in H as [H1 H2].
  split; [|exact H2]. intros ->. discriminate.
Qed.

(** *** The pattern, as a relation on strings *)

Lemma field_header_pattern_match_marker (name rest : string) :
  is_name name = true ->
  field_header_pattern_match (marker name ++ rest) = Some name.
Proof.
  intros Hn. destruct (is_name_inv _ Hn) as [Hne Hw].
  unfold field_header_pattern_match, marker.
  rewrite !append_assoc, strip_prefix_append.
  rewrite (span_word_append name (header_close ++ rest) Hw eq_refl).
  destruct name as [|c name]; [now elim Hne|].
  now rewrite prefix_append.
Qed.

Lemma field_header_pattern_match_inv (s name : string) :
  field_header_pattern_match s = Some name ->
  is_name name = true /\ exists rest, s = marker name ++ rest.
Proof.
  unfold field_header_pattern_match. intros H.
  destruct (strip_prefix header_open s) as [after_open|] eqn:Ho; [|discriminate].
  apply strip_prefix_inv in Ho.
  destruct (span_word after_open) as [w tl] eqn:Hs.
  apply span_word_spec in Hs as (-> & Hw & _).
  destruct w as [|c w]; [discriminate|].
  destruct (prefix header_close tl) eqn:Hp; [|discriminate].
  injection H as <-.
  apply prefix_inv in Hp as [rest ->].
  split.
  - unfold is_name. now rewrite Hw.
  - exists rest. subst s. unfold marker. now rewrite !append_assoc.
Qed.

Lemma field_header_pattern_match_iff (s name : string) :
  field_header_pattern_match s = Some name <->
  is_name name = true /\ exists rest, s = marker name ++ rest.
Proof.
  split; [apply field_header_pattern_match_inv|].
  intros [Hn [rest ->]]. now apply field_header_pattern_match_marker.
Qed.

(** ** Lemmas: the first loop of [parse] *)

Lemma append_to_last_snoc (init : list (option string * list string))
    (k : option string) (buf : list string) (line : string) :
  append_to_last (init ++ [(k, buf)]) line = (init ++ [(k, buf ++ [line])])%list.
Proof.
  induction init as [|s init IH]; simpl; [reflexivity|].
  rewrite IH. destruct s as [k' v'].
  destruct (init ++ [(k, buf)])%list eqn:E; [|reflexivity].
  now destruct init.
Qed.

Lemma append_to_last_length (sections : list (option string * list string))
    (line : string) :
  List.length (append_to_last sections line) = List.length sections.
Proof.
  induction sections as [|[k v] rest IH]; simpl; [reflexivity|].
  destruct rest; simpl in *; [reflexivity | now rewrite IH].
Qed.

(** ** Lemmas: names and dictionaries *)

Lemma mem_In (x : string) (xs : list string) : mem x xs = true <-> In x xs.
Proof.
  unfold mem. rewrite existsb_exists. split.
  - intros (y & Hy & E). apply String.eqb_eq in E. now subst.
  - intros H. exists x. split; [exact H | apply String.eqb_refl].
Qed.

Lemma mem_false (x : string) (xs : list string) :
  mem x xs = false <-> ~ In x xs.
Proof.
  rewrite <- mem_In. destruct (mem x xs); split; congruence.
Qed.

Lemma keys_eq_iff (a b : list string) :
  keys_eq a b = true <-> (forall k, In k a <-> In k b).
Proof.
  unfold keys_eq. rewrite andb_true_iff, !forallb_forall. split.
  - intros [Hab Hba] k. split; intros H.
    + now apply mem_In, Hab.
    + now apply mem_In, Hba.
  - intros H. split; intros k Hk; apply mem_In, H, Hk.
Qed.

Lemma keys_dict_set_fresh {V} (d : dict V) (k : string) (v : V) :
  dict_mem k d = false -> dict_set d k v = (d ++ [(k, v)])%list.
Proof.
  unfold dict_mem, mem. induction d as [|[k' v'] d IH]; simpl; [reflexivity|].
  intros H. apply orb_false_iff in H as [H1 H2].
  rewrite H1. now rewrite (IH H2).
Qed.

Lemma keys_dict_set {V} (d : dict V) (k : string) (v : V) (x : string) :
  In x (keys (dict_set d k v)) <-> x = k \/ In x (keys d).
Proof.
  induction d as [|[k' v'] d IH]; simpl.
  - intuition.
  - destruct (String.eqb_spec k k') as [->|N]; simpl.
    + intuition.
    + rewrite IH. intuition.
Qed.

Lemma dict_get_None {V} (d : dict V) (k : string) :
  dict_get d k = None <-> dict_mem k d = false.
Proof.
  unfold dict_mem, mem. induction d as [|[k' v'] d IH]; simpl.
  - intuition.
  - destruct (String.eqb k k'); simpl; [intuition discriminate | exact IH].
Qed.

Lemma dict_get_snoc {V} (d : dict V) (k x : string) (v : V) :
  dict_get (d ++ [(k, v)])%list x =
  match dict_get d x with
  | Some y => Some y
  | None => if String.eqb x k then Some v else None
  end.
Proof.
  induction d as [|[k' v'] d IH]; simpl; [reflexivity|].
  now destruct (String.eqb x k').
Qed.

Lemma dict_mem_covers {V} (names : list string) (d : dict V) :
  forallb (fun k => dict_mem k d) names = true <->
  (forall k, In k names -> In k (keys d)).
Proof.
  rewrite forallb_forall. unfold dict_mem.
  split; intros H k Hk; apply mem_In, H, Hk.
Qed.

(** ** Lemmas: the second loop of [parse] *)

Lemma section_names_In (sections : list (option string * string))
    (k : string) :
  In k (section_names sections) <-> In (Some k) (map fst sections).
Proof.
  induction sections as [|[[k'|] v] rest IH]; simpl.
  - tauto.
  - rewrite IH. split; intros [H|H]; auto; left; congruence.
  - rewrite IH. split; [auto | intros [H|H]; [discriminate | exact H]].
Qed.

Lemma collect_keys (signature : Signature)
    (sections : list (option string * string)) (acc : dict string)
    (k : string) :
  In k (keys (fold_left (collect_section signature) sections acc)) <->
  In k (keys acc)
  \/ (In k (section_names sections)
      /\ dict_mem k (output_fields signature) = true).
Proof.
  revert acc. induction sections as [|[[k'|] v] rest IH]; intros acc; simpl.
  - tauto.
  - rewrite IH. unfold collect_section; simpl.
    destruct (dict_mem k' acc) eqn:Ha; simpl.
    + apply mem_In in Ha. split; [tauto|].
      intros [H|[[->|H] Ho]]; auto.
    + destruct (dict_mem k' (output_fields signature)) eqn:Ho.
      * rewrite keys_dict_set. split.
        -- intros [[->|H]|[H1 H2]]; auto.
        -- intros [H|[[->|H] H2]]; auto.
      * split; [tauto|].
        intros [H|[[->|H] H2]]; auto. congruence.
  - rewrite IH. unfold collect_section; simpl. tauto.
Qed.

Lemma collect_fields_keys (signature : Signature) (completion : string)
    (k : string) :
  In k (keys (collect_fields signature (parse_sections completion))) <->
  In k (recovered_names signature completion).
Proof.
  unfold collect_fields, recovered_names.
  rewrite collect_keys, filter_In. simpl. tauto.
Qed.

Lemma collect_get (signature : Signature)
    (sections : list (option string * string)) (acc : dict string)
    (k : string) :
  dict_get (fold_left (collect_section signature) sections acc) k =
  match dict_get acc k with
  | Some v => Some v
  | None =>
      if dict_mem k (output_fields signature)
      then first_section k sections
      else None
  end.
Proof.
  revert acc. induction sections as [|[[k'|] v] rest IH]; intros acc; simpl.
  - destruct (dict_get acc k); [reflexivity|].
    now destruct (dict_mem k (output_fields signature)).
  - rewrite IH. unfold collect_section; simpl.
    destruct (dict_mem k' acc) eqn:Ha; simpl.
    + destruct (dict_get acc k) eqn:Hg; [reflexivity|].
      destruct (String.eqb_spec k k') as [->|N]; [|reflexivity].
      apply dict_get_None in Hg. congruence.
    + destruct (dict_mem k' (output_fields signature)) eqn:Ho.
      * rewrite (keys_dict_set_fresh _ _ _ Ha), dict_get_snoc.
        destruct (dict_get acc k); [reflexivity|].
        destruct (String.eqb_spec k k') as [->|N]; [now rewrite Ho|].
        reflexivity.
      * destruct (dict_get acc k); [reflexivity|].
        destruct (String.eqb_spec k k') as [->|N]; [now rewrite Ho|].
        reflexivity.
  - now rewrite IH.
Qed.

Lemma first_section_found (pre post : list (option string * string))
    (k v : string) :
  ~ In (Some k) (map fst pre) ->
  first_section k (pre ++ (Some k, v) :: post) = Some v.
Proof.
  induction pre as [|[[k'|] v'] pre IH]; simpl; intros H.
  - now rewrite String.eqb_refl.
  - destruct (String.eqb_spec k k') as [->|N]; [tauto|].
    apply IH. tauto.
  - apply IH. tauto.
Qed.

(** ** Theorems about [parse] *)

(** C3, as amended. In [parse], a line opens a new named section if and
    only if the line, after trimming, BEGINS with a marker
    [[[[[ #### name #### ]]]]] whose name is one or more word characters:
    the pattern is anchored at the start only, and what follows the closing
    brackets on that line is dropped. Every other line is appended, as it
    is, to the buffer of the current (last) section. *)
Theorem scan_line_opens_on_marker_prefix
    (init : list (option string * list string)) (k : option string)
    (buf : list string) (line : string) :
  let sections := (init ++ [(k, buf)])%list in
  (forall name,
      scan_line sections line = (sections ++ [(Some name, [])])%list <->
      is_name name = true /\ exists rest, strip line = marker name ++ rest)
  /\ ((exists name rest,
          is_name name = true /\ strip line = marker name ++ rest)
      \/ scan_line sections line = (init ++ [(k, (buf ++ [line])%list)])%list).
Proof.
  intros sections. unfold scan_line.
  destruct (field_header_pattern_match (strip line)) as [n|] eqn:Hm.
  - apply field_header_pattern_match_inv in Hm as Hn. split.
    + intros name. split.
      * intros E. apply app_inv_head in E. injection E as <-. exact Hn.
      * intros [Hname [rest E]]. rewrite E in Hm.
        rewrite (field_header_pattern_match_marker _ _ Hname) in Hm.
        now injection Hm as <-.
    + left. destruct Hn as [Hn [rest E]]. now exists n, rest.
  - split.
    + intros name. split.
      * intros E. apply (f_equal (@List.length _)) in E.
        rewrite append_to_last_length, length_app in E. simpl in E. lia.
      * intros [Hname [rest E]]. rewrite E in Hm.
        rewrite (field_header_pattern_match_marker _ _ Hname) in Hm.
        discriminate.
    + right. apply append_to_last_snoc.
Qed.

Lemma scan_line_opens_on_marker_prefix_witness :
  scan_line [(None, ["intro"])] (" " ++ marker "answer" ++ " tail ")
  = [(None, ["intro"]); (Some "answer", [])].
Proof.
  apply (proj1 (scan_line_opens_on_marker_prefix [] None ["intro"]
                  (" " ++ marker "answer" ++ " tail ")) "answer").
  split; [reflexivity | now exists " tail"].
Defined.

(** C3, as stated, fails: a trimmed line that begins with a marker and
    carries text after the closing brackets does not match the pattern
    anchored at both ends, and still opens a section instead of going to
    the buffer. *)
Lemma marker_with_trailing_text_opens_section :
  full_line_pattern_match (strip (marker "a" ++ " tail")) = None
  /\ scan_line [(None, [])] (marker "a" ++ " tail")
     = [(None, []); (Some "a", [])]
  /\ scan_line [(None, [])] (marker "a" ++ " tail")
     <> [(None, [marker "a" ++ " tail"])].
Proof. repeat split; [vm_compute; discriminate]. Qed.

(** C2. [parse] raises if and only if the recovered section names (the
    opening anonymous section and the sections without an expected name
    dropped) are not, as a set, the names of the signature's output fields.
    In particular it raises as soon as one expected name has no marker in
    the text, whatever other markers the text has. *)
Theorem parse_raises_iff_names_differ (signature : Signature)
    (completion : string) :
  ((exists e, parse signature completion = Raise e) <->
   ~ (forall k, In k (recovered_names signature completion) <->
                In k (keys (output_fields signature))))
  /\ (forall k,
        In k (keys (output_fields signature)) ->
        ~ In k (section_names (parse_sections completion)) ->
        exists e, parse signature completion = Raise e).
Proof.
  assert (Hiff : (exists e, parse signature completion = Raise e) <->
     ~ (forall k, In k (recovered_names signature completion) <->
                  In k (keys (output_fields signature)))).
  { unfold parse.
    destruct (keys_eq (keys (collect_fields signature (parse_sections completion)))
                (keys (output_fields signature))) eqn:E; simpl.
    - pose proof (proj1 (keys_eq_iff _ _) E) as E'. split.
      + intros [e H]. discriminate.
      + intros H. exfalso. apply H. intros k.
        rewrite <- collect_fields_keys. apply E'.
    - split.
      + intros _ H.
        assert (keys_eq (keys (collect_fields signature (parse_sections completion)))
                  (keys (output_fields signature)) = true); [|congruence].
        apply keys_eq_iff. intros k. now rewrite collect_fields_keys.
      + intros _. eexists. reflexivity. }
  split; [exact Hiff|].
  intros k Hk Hno. apply Hiff. intros H.
  apply H in Hk. unfold recovered_names in Hk.
  apply filter_In in Hk as [Hk _]. now apply Hno.
Qed.

Lemma parse_raises_iff_names_differ_witness :
  exists e,
    parse qa_signature (marker "other" ++ NL ++ "x" ++ NL ++ marker "completed")
    = Raise e.
Proof.
  apply (proj2 (parse_raises_iff_names_differ qa_signature
                  (marker "other" ++ NL ++ "x" ++ NL ++ marker "completed"))
               "answer").
  - simpl. left. reflexivity.
  - vm_compute. intros [H|[H|[]]]; discriminate.
Defined.

(** C4. When the text has several sections with the same name, [parse]
    keeps the content of the first of them and of no later one: the value
    returned for an expected name is the content of its first section. (A
    name that is not expected has no entry at all.) *)
Theorem parse_first_section_wins (signature : Signature)
    (completion : string) (fields : dict string)
    (pre post : list (option string * string)) (k v : string) :
  parse signature completion = Ok fields ->
  parse_sections completion = (pre ++ (Some k, v) :: post)%list ->
  ~ In (Some k) (map fst pre) ->
  dict_get fields k =
  if dict_mem k (output_fields signature) then Some v else None.
Proof.
  unfold parse. intros Hp Hs Hpre.
  destruct (negb _); [discriminate|]. injection Hp as <-.
  unfold collect_fields. rewrite collect_get. simpl.
  rewrite Hs, (first_section_found _ _ _ _ Hpre). reflexivity.
Qed.

Lemma parse_first_section_wins_witness :
  parse qa_signature twice_answered = Ok [("answer", "4")]
  /\ dict_get [("answer", "4")] "answer" = Some "4".
Proof.
  split; [reflexivity|].
  apply (parse_first_section_wins qa_signature twice_answered
           [("answer", "4")] [(None, "")] [(Some "answer", "5")] "answer" "4").
  - reflexivity.
  - reflexivity.
  - simpl. intros [H|[]]. discriminate.
Defined.

(** ** Lemmas: [format_chat_turn] *)

Lemma covers_get (values : dict value) (names : list string) (k : string) :
  covers values names -> In k names -> exists v, dict_get values k = Some v.
Proof.
  intros Hc Hk. destruct (dict_get values k) as [v|] eqn:E; [now exists v|].
  apply dict_get_None in E. apply mem_false in E. elim E. now apply Hc.
Qed.

Lemma covers_tail (values : dict value) (k : string) (names : list string) :
  covers values (k :: names) -> covers values names.
Proof. intros H x Hx. apply H. now right. Qed.

Lemma image_parts_eq (w : world) (names : list string) (values : dict value)
    (request : list part) :
  covers values names ->
  image_parts w names values request =
  (b64s <- encode_each w (supplied_images names values) ;;
   Ok (request ++ map image_part b64s)%list).
Proof.
  revert request. induction names as [|k names IH]; intros request Hc.
  - simpl. now rewrite app_nil_r.
  - pose proof (covers_tail _ _ _ Hc) as Hc'.
    unfold supplied_images in *. simpl.
    destruct (contains "image" k) eqn:Hk; simpl; [|now apply IH].
    destruct (covers_get _ _ k Hc (or_introl eq_refl)) as [v Hv].
    unfold getitem. rewrite Hv. simpl.
    destruct (truthy v) eqn:Ht; simpl; [|now apply IH].
    destruct (encode_image w v) as [b|e]; simpl; [|reflexivity].
    destruct (b =? "") eqn:Hb; simpl; [reflexivity|].
    rewrite (IH _ Hc').
    destruct (encode_each w _) as [bs|e]; simpl; [|reflexivity].
    now rewrite <- app_assoc.
Qed.

Lemma dict_set_same {V} (d : dict V) (k : string) (v : V) :
  dict_get d k = Some v -> dict_set d k v = d.
Proof.
  induction d as [|[k' v'] d IH]; simpl; [discriminate|].
  destruct (String.eqb k k').
  - now intros [= ->].
  - intros H. now rewrite (IH H).
Qed.

Lemma dict_mem_snoc {V} (d : dict V) (k x : string) (v : V) :
  dict_mem x (d ++ [(k, v)])%list = dict_mem x d || String.eqb x k.
Proof.
  unfold dict_mem, mem, keys. rewrite map_app, existsb_app. simpl.
  now rewrite orb_false_r.
Qed.

Lemma filter_twice {A} (f g : A -> bool) (l : list A) :
  filter f (filter g l) = filter (fun x => g x && f x) l.
Proof.
  induction l as [|x l IH]; simpl; [reflexivity|].
  destruct (g x); simpl; [|exact IH].
  destruct (f x); now rewrite IH.
Qed.

Lemma text_fields_acc (names : list string) (values acc : dict value) :
  covers values names ->
  (forall k v, dict_get acc k = Some v -> dict_get values k = Some v) ->
  text_fields names values acc =
  Ok (acc ++ lookup_all values
               (filter (fun k => negb (dict_mem k acc))
                  (distinct (filter (fun k => negb (contains "image" k)) names))))%list.
Proof.
  revert acc. induction names as [|k names IH]; intros acc Hc Hacc.
  - simpl. now rewrite app_nil_r.
  - pose proof (covers_tail _ _ _ Hc) as Hc'. simpl.
    destruct (contains "image" k) eqn:Hk; simpl; [now apply IH|].
    destruct (covers_get _ _ k Hc (or_introl eq_refl)) as [v Hv].
    unfold getitem. rewrite Hv. simpl.
    destruct (dict_mem k acc) eqn:Hm; simpl.
    + assert (Hg : dict_get acc k = Some v).
      { destruct (dict_get acc k) as [v'|] eqn:E.
        - apply Hacc in E. congruence.
        - apply dict_get_None in E. congruence. }
      rewrite (dict_set_same _ _ _ Hg), (IH _ Hc' Hacc).
      rewrite filter_twice. do 3 f_equal. apply filter_ext. intros x.
      destruct (String.eqb_spec x k) as [->|N]; simpl; [now rewrite Hm|].
      reflexivity.
    + rewrite (keys_dict_set_fresh _ _ _ Hm), IH; [|exact Hc'|].
      * rewrite Hv. simpl. rewrite <- app_assoc. simpl. do 3 f_equal.
        rewrite filter_twice. f_equal. apply filter_ext. intros x.
        rewrite dict_mem_snoc.
        destruct (String.eqb x k), (dict_mem x acc); reflexivity.
      * intros x y. rewrite dict_get_snoc.
        destruct (dict_get acc x) eqn:E; [intros [= <-]; now apply Hacc|].
        destruct (String.eqb_spec x k) as [->|N]; [|discriminate].
        now intros [= <-].
Qed.

Lemma text_fields_eq (names : list string) (values : dict value) :
  covers values names ->
  text_fields names values [] = Ok (non_image_fields names values).
Proof.
  intros Hc. rewrite (text_fields_acc names values [] Hc).
  - simpl. unfold non_image_fields.
    rewrite forallb_filter_id; [reflexivity|].
    apply forallb_forall. reflexivity.
  - discriminate.
Qed.

(** [format_chat_turn] on covering values: the supplied images are encoded
    in order, and the parts are their data URLs followed by the one text
    part. *)
Lemma format_chat_turn_eq (w : world) (names : list string)
    (values : dict value) :
  covers values names ->
  format_chat_turn w names values =
  (b64s <- encode_each w (supplied_images names values) ;;
   Ok (map image_part b64s
       ++ [Text (format_fields (non_image_fields names values))])%list).
Proof.
  intros Hc. unfold format_chat_turn.
  rewrite (proj2 (dict_mem_covers names values) Hc). simpl.
  rewrite (text_fields_eq _ _ Hc). simpl.
  rewrite (image_parts_eq _ _ _ _ Hc). simpl.
  now destruct (encode_each w _).
Qed.

Lemma format_chat_turn_uncovered (w : world) (names : list string)
    (values : dict value) :
  ~ covers values names ->
  format_chat_turn w names values
  = Raise (ValueError_expected names (keys values)).
Proof.
  intros Hn. unfold format_chat_turn.
  destruct (forallb (fun k => dict_mem k values) names) eqn:E; [|reflexivity].
  elim Hn. exact (proj1 (dict_mem_covers names values) E).
Qed.

Lemma encode_each_length (w : world) (images : list (string * value))
    (b64s : list string) :
  encode_each w images = Ok b64s -> List.length b64s = List.length images.
Proof.
  revert b64s. induction images as [|[k v] images IH]; simpl; intros b64s H.
  - now injection H as <-.
  - destruct (encode_image w v) as [b|e]; simpl in H; [|discriminate].
    destruct (b =? ""); [discriminate|].
    destruct (encode_each w images) as [tl|e]; simpl in H; [|discriminate].
    injection H as <-. simpl. now rewrite (IH tl).
Qed.

Lemma encode_each_In (w : world) (images : list (string * value))
    (b64s : list string) (k : string) (v : value) :
  encode_each w images = Ok b64s -> In (k, v) images ->
  exists b, encode_image w v = Ok b /\ In b b64s.
Proof.
  revert b64s. induction images as [|[k' v'] images IH]; simpl; intros b64s H Hin.
  - contradiction.
  - destruct (encode_image w v') as [b|e] eqn:Hb; simpl in H; [|discriminate].
    destruct (b =? ""); [discriminate|].
    destruct (encode_each w images) as [tl|e]; simpl in H; [|discriminate].
    injection H as <-. destruct Hin as [[= <- <-]|Hin].
    + exists b. split; [exact Hb | now left].
    + destruct (IH tl eq_refl Hin) as (b' & H1 & H2).
      exists b'. split; [exact H1 | now right].
Qed.

Lemma format_chat_turn_ok_covers (w : world) (names : list string)
    (values : dict value) (parts : list part) :
  format_chat_turn w names values = Ok parts -> covers values names.
Proof.
  unfold format_chat_turn. intros H.
  destruct (forallb (fun k => dict_mem k values) names) eqn:E;
    [|discriminate].
  exact (proj1 (dict_mem_covers names values) E).
Qed.

Lemma format_chat_turn_ok_inv (w : world) (names : list string)
    (values : dict value) (parts : list part) :
  format_chat_turn w names values = Ok parts ->
  exists b64s,
    encode_each w (supplied_images names values) = Ok b64s
    /\ parts = (map image_part b64s
                ++ [Text (format_fields (non_image_fields names values))])%list.
Proof.
  intros H. pose proof (format_chat_turn_ok_covers _ _ _ _ H) as Hc.
  rewrite (format_chat_turn_eq _ _ _ Hc) in H.
  destruct (encode_each w _) as [bs|e]; simpl in H; [|discriminate].
  injection H as <-. now exists bs.
Qed.

(** ** Theorems about [format_chat_turn] *)

(** C5. On values that cover all field names, [format_chat_turn] encodes
    the supplied images (fields whose name contains "image" and whose value
    is truthy) in [field_names] order and returns one image part for each,
    followed by exactly one text part holding [format_fields] of the other
    fields; an image field with a falsy value gives no part, and the text
    part is there whatever the block is. The call raises only when an image
    cannot be encoded. *)
Theorem format_chat_turn_images_then_text (w : world)
    (field_names : list string) (values : dict value) :
  covers values field_names ->
  format_chat_turn w field_names values =
    (b64s <- encode_each w (supplied_images field_names values) ;;
     Ok (map image_part b64s
         ++ [Text (format_fields (non_image_fields field_names values))])%list)
  /\ (forall parts,
        format_chat_turn w field_names values = Ok parts ->
        exists b64s,
          List.length b64s
            = List.length (supplied_images field_names values)
          /\ parts =
             (map image_part b64s
              ++ [Text (format_fields
                          (non_image_fields field_names values))])%list).
Proof.
  intros Hc. split; [now apply format_chat_turn_eq|].
  intros parts H.
  destruct (format_chat_turn_ok_inv _ _ _ _ H) as (bs & He & ->).
  exists bs. split; [now apply encode_each_length in He | reflexivity].
Qed.

Lemma format_chat_turn_images_then_text_witness :
  format_chat_turn offline ["scan_image"; "question"; "photo_image"]
    [("question", VStr "2+2?"); ("scan_image", VStr "");
     ("photo_image", tiny_image)]
  = Ok [ImageUrl "data:image/jpeg;base64,iVBORw==";
        Text "[[[[ #### question #### ]]]]
2+2?"].
Proof.
  refine (proj1 (format_chat_turn_images_then_text offline
                   ["scan_image"; "question"; "photo_image"]
                   [("question", VStr "2+2?"); ("scan_image", VStr "");
                    ("photo_image", tiny_image)] _)).
  intros k [<-|[<-|[<-|[]]]]; simpl; tauto.
Defined.

(** C7. When [values] lacks one of [field_names], [format_chat_turn]
    raises the error that carries the expected names and the keys found.
    This is its first step: no image is encoded and no part is built, in
    whatever world the call is made. *)
Theorem format_chat_turn_missing_field (w : world)
    (field_names : list string) (values : dict value) :
  ~ covers values field_names ->
  format_chat_turn w field_names values
  = Raise (ValueError_expected field_names (keys values))
  /\ forall parts, format_chat_turn w field_names values <> Ok parts.
Proof.
  intros Hn. rewrite (format_chat_turn_uncovered w _ _ Hn).
  split; [reflexivity | discriminate].
Qed.

Lemma format_chat_turn_missing_field_witness :
  format_chat_turn offline ["photo_image"; "question"]
    [("photo_image", tiny_image)]
  = Raise (ValueError_expected ["photo_image"; "question"] ["photo_image"]).
Proof.
  refine (proj1 (format_chat_turn_missing_field offline
                   ["photo_image"; "question"] [("photo_image", tiny_image)]
                   _)).
  intros H. destruct (H "question") as [E|[]]; [simpl; tauto | discriminate].
Defined.

(** C9. Every image part that [format_chat_turn] returns has a URL that
    begins with "data:image/jpeg;base64,", whatever the image came from. A
    PIL image object is saved as PNG, and its part carries the base64 of
    those PNG bytes behind the same JPEG prefix. *)
Theorem image_parts_declare_jpeg (w : world) (field_names : list string)
    (values : dict value) (parts : list part) :
  format_chat_turn w field_names values = Ok parts ->
  (forall url, In (ImageUrl url) parts ->
     exists image_base64, url = "data:image/jpeg;base64," ++ image_base64)
  /\ (forall k shown png,
        In (k, VImage shown (Some png)) (supplied_images field_names values) ->
        In (ImageUrl ("data:image/jpeg;base64," ++ b64encode png)) parts).
Proof.
  intros H.
  destruct (format_chat_turn_ok_inv _ _ _ _ H) as (bs & He & ->).
  split.
  - intros url Hin. apply in_app_or in Hin as [Hin|[Hin|[]]]; [|discriminate].
    apply in_map_iff in Hin as (b & [= <-] & _). now exists b.
  - intros k shown png Hin.
    destruct (encode_each_In _ _ _ _ _ He Hin) as (b & Hb & Hbs).
    unfold encode_image in Hb.
    destruct (pil_installed w); simpl in Hb; [|discriminate].
    injection Hb as <-.
    apply in_or_app. left.
    apply in_map_iff. exists (b64encode png). split; [reflexivity | exact Hbs].
Qed.

Lemma image_parts_declare_jpeg_witness :
  In (ImageUrl ("data:image/jpeg;base64," ++ b64encode tiny_png))
     [ImageUrl "data:image/jpeg;base64,iVBORw=="; Text ""].
Proof.
  apply (proj2 (image_parts_declare_jpeg offline ["photo_image"]
                  [("photo_image", tiny_image)]
                  [ImageUrl "data:image/jpeg;base64,iVBORw=="; Text ""]
                  eq_refl)
               "photo_image" "<PIL.Image.Image>" tiny_png).
  simpl. left. reflexivity.
Defined.

(** ** [format] *)

Lemma turn_ready_ok (w : world) (names : list string) (values : dict value) :
  turn_ready w names values ->
  exists parts, format_chat_turn w names values = Ok parts.
Proof.
  intros [Hc He]. rewrite (format_chat_turn_eq _ _ _ Hc).
  destruct (encode_each w _) as [bs|e]; [|discriminate].
  simpl. eexists. reflexivity.
Qed.

Lemma format_demos_shape (w : world) (signature : Signature)
    (demos : list (dict value)) (messages out : list message) :
  format_demos w signature demos messages = Ok out ->
  exists added,
    out = (messages ++ added)%list
    /\ map msg_role added = flat_map (fun _ => [user; assistant]) demos.
Proof.
  revert messages. induction demos as [|demo demos IH]; simpl; intros messages H.
  - injection H as <-. exists []. now rewrite app_nil_r.
  - destruct (format_chat_turn w (keys (input_fields signature)) demo)
      as [u|e]; simpl in H; [|discriminate].
    destruct (format_chat_turn w _ (dict_set demo "completed" (VStr "")))
      as [a|e]; simpl in H; [|discriminate].
    destruct (IH _ H) as (added & -> & Hr).
    exists (mk_message user (Parts u) :: mk_message assistant (Parts a) :: added).
    split; [now rewrite <- app_assoc | simpl; now rewrite Hr].
Qed.

Lemma format_demos_ready (w : world) (signature : Signature)
    (demos : list (dict value)) (messages : list message) :
  Forall (demo_ready w signature) demos ->
  exists out, format_demos w signature demos messages = Ok out.
Proof.
  intros H. revert messages.
  induction H as [|demo demos [Hu Ha] _ IH]; intros messages; simpl.
  - now exists messages.
  - destruct (turn_ready_ok _ _ _ Hu) as [u ->].
    destruct (turn_ready_ok _ _ _ Ha) as [a ->]. simpl. apply IH.
Qed.

Lemma flat_map_pairs_length {A} (demos : list A) :
  List.length (flat_map (fun _ => [user; assistant]) demos)
  = 2 * List.length demos.
Proof. induction demos as [|d demos IH]; simpl; [reflexivity | lia]. Qed.

(** C6. With the preconditions of every turn satisfied, [format] returns;
    and what it returns for [n] demos is 2n + 2 messages: one system
    message, a user message and an assistant message for each demo in the
    order given, and one last user message. *)
Theorem format_message_roles (w : world) (signature : Signature)
    (demos : list (dict value)) (inputs : dict value) :
  Forall (demo_ready w signature) demos ->
  turn_ready w (keys (input_fields signature)) inputs ->
  exists messages,
    format w signature demos inputs = Ok messages
    /\ List.length messages = 2 * List.length demos + 2
    /\ map msg_role messages
       = (system :: flat_map (fun _ => [user; assistant]) demos ++ [user])%list.
Proof.
  intros Hd Hi. unfold format.
  destruct (format_demos_ready w signature demos
              [mk_message system (Plain (prepare_instructions signature))] Hd)
    as [out Hout].
  rewrite Hout. simpl.
  destruct (turn_ready_ok _ _ _ Hi) as [u ->]. simpl.
  destruct (format_demos_shape _ _ _ _ _ Hout) as (added & -> & Hr).
  eexists. split; [reflexivity|].
  assert (Hroles :
    map msg_role
      (([mk_message system (Plain (prepare_instructions signature))] ++ added)
       ++ [mk_message user (Parts u)])%list
    = (system :: flat_map (fun _ => [user; assistant]) demos ++ [user])%list).
  { simpl. rewrite map_app, Hr. reflexivity. }
  split; [|exact Hroles].
  rewrite <- (length_map msg_role), Hroles. simpl.
  rewrite length_app, flat_map_pairs_length. simpl. lia.
Qed.

Lemma format_message_roles_witness :
  exists messages,
    format offline qa_signature [qa_demo] qa_inputs = Ok messages
    /\ List.length messages = 4
    /\ map msg_role messages = [system; user; assistant; user].
Proof.
  refine (format_message_roles offline qa_signature [qa_demo] qa_inputs _ _).
  - constructor; [|constructor]. split; split; try reflexivity.
    + intros k [<-|[]]; simpl; tauto.
    + intros k [<-|[<-|[]]]; simpl; tauto.
  - split; [|reflexivity]. intros k [<-|[]]; simpl; tauto.
Defined.

(** ** [format] and the caller's objects *)

Lemma load_app (st fresh : store) (a : address) (o : object) :
  load st a = Some o -> load (st ++ fresh)%list a = Some o.
Proof.
  unfold load. intros H. rewrite nth_error_app1; [exact H|].
  apply nth_error_Some. congruence.
Qed.

Lemma format_demos_at_extends (w : world) (sg : Signature)
    (demos : list address) (st : store) (messages : list message) :
  exists fresh,
    fst (format_demos_at w sg demos st messages) = (st ++ fresh)%list
    /\ Forall completed_copy fresh.
Proof.
  revert st messages. induction demos as [|demo demos IH]; intros st messages.
  - exists []. simpl. now rewrite app_nil_r.
  - simpl.
    destruct (load st demo) as [[d|items|s]|];
      try (exists []; simpl; now rewrite app_nil_r).
    assert (Hcopy : completed_copy (ODict (dict_set d "completed" (VStr ""))))
      by now exists d.
    destruct (format_chat_turn_at w _ (keys (input_fields sg)) demo) as [u|e].
    + destruct (format_chat_turn_at w _ _ (List.length st)) as [a|e].
      * destruct (IH (st ++ [ODict (dict_set d "completed" (VStr ""))])%list
                    (messages ++ [mk_message user (Parts u);
                                  mk_message assistant (Parts a)])%list)
          as (fresh & -> & Hf).
        exists (ODict (dict_set d "completed" (VStr "")) :: fresh).
        split; [now rewrite <- app_assoc | now constructor].
      * exists [ODict (dict_set d "completed" (VStr ""))].
        split; [reflexivity | now constructor].
    + exists [ODict (dict_set d "completed" (VStr ""))].
      split; [reflexivity | now constructor].
Qed.

Lemma format_at_extends (w : world) (st : store)
    (signature demos inputs : address) :
  exists fresh,
    fst (format_at w st signature demos inputs) = (st ++ fresh)%list
    /\ Forall completed_copy fresh.
Proof.
  unfold format_at.
  destruct (load st signature) as [[d|items|sg]|];
    try (exists []; simpl; now rewrite app_nil_r).
  destruct (load st demos) as [[d|ds|s]|];
    try (exists []; simpl; now rewrite app_nil_r).
  destruct (format_demos_at_extends w sg ds st
              [mk_message system (Plain (prepare_instructions sg))])
    as (fresh & Hst & Hf).
  destruct (format_demos_at w sg ds st _) as [st1 [messages|e]];
    simpl in Hst; subst st1.
  - destruct (format_chat_turn_at w _ _ inputs); now exists fresh.
  - now exists fresh.
Qed.

(** C10. [format] changes none of the objects it is given. Whatever the
    addresses passed for the signature, the demos and the inputs point to,
    and whether the call returns or raises, the store afterwards is the
    store before followed by new objects; every object of the caller (the
    signature, the sequence of demos, each demo, the inputs) is found
    unchanged at its address; and each new object is a dictionary made by
    [{**demo, 'completed': ''}], so "completed" is only ever set in a
    copy. *)
Theorem format_leaves_arguments_unchanged (w : world) (st : store)
    (signature demos inputs : address) :
  exists fresh,
    fst (format_at w st signature demos inputs) = (st ++ fresh)%list
    /\ (forall a o,
          load st a = Some o ->
          load (fst (format_at w st signature demos inputs)) a = Some o)
    /\ Forall completed_copy fresh.
Proof.
  destruct (format_at_extends w st signature demos inputs)
    as (fresh & Hst & Hf).
  exists fresh. repeat split; [exact Hst | | exact Hf].
  intros a o H. rewrite Hst. now apply load_app.
Qed.

Lemma format_leaves_arguments_unchanged_witness :
  load (fst (format_at offline qa_store 0 3 2)) 1 = Some (ODict qa_demo).
Proof.
  destruct (format_leaves_arguments_unchanged offline qa_store 0 3 2)
    as (fresh & _ & H & _).
  apply H. reflexivity.
Defined.

(** [format_at] computes what [format] computes on the objects found at
    the addresses. *)
Lemma load_dicts_app (st fresh : store) (ds : list address)
    (dl : list (dict value)) :
  load_dicts st ds = Some dl ->
  load_dicts (st ++ fresh)%list ds = Some dl.
Proof.
  revert dl. induction ds as [|a ds IH]; simpl; intros dl H; [exact H|].
  destruct (load st a) as [[d|items|s]|] eqn:Ha; try discriminate.
  destruct (load_dicts st ds) as [tl|]; [|discriminate].
  rewrite (load_app _ fresh _ _ Ha), (IH tl eq_refl). exact H.
Qed.

Lemma format_demos_at_agrees (w : world) (sg : Signature)
    (ds : list address) (dl : list (dict value)) (st : store)
    (messages : list message) :
  load_dicts st ds = Some dl ->
  snd (format_demos_at w sg ds st messages) = format_demos w sg dl messages.
Proof.
  revert dl st messages.
  induction ds as [|a ds IH]; simpl; intros dl st messages H.
  - now injection H as <-.
  - destruct (load st a) as [[d|items|s]|] eqn:Ha; try discriminate.
    destruct (load_dicts st ds) as [tl|] eqn:Hd; [|discriminate].
    injection H as <-. simpl.
    unfold format_chat_turn_at.
    rewrite (load_app _ [ODict (dict_set d "completed" (VStr ""))] _ _ Ha).
    destruct (format_chat_turn w (keys (input_fields sg)) d) as [u|e];
      simpl; [|reflexivity].
    unfold load. rewrite nth_error_app2, Nat.sub_diag; [simpl | lia].
    destruct (format_chat_turn w _ (dict_set d "completed" (VStr "")))
      as [p|e]; simpl; [|reflexivity].
    apply IH. now apply load_dicts_app.
Qed.

Lemma format_at_agrees (w : world) (st : store)
    (signature demos inputs : address) (sg : Signature)
    (ds : list address) (dl : list (dict value)) (i : dict value) :
  load st signature = Some (OSignature sg) ->
  load st demos = Some (OList ds) ->
  load_dicts st ds = Some dl ->
  load st inputs = Some (ODict i) ->
  snd (format_at w st signature demos inputs) = format w sg dl i.
Proof.
  intros Hs Hd Hl Hi. unfold format_at, format. rewrite Hs, Hd.
  pose proof (format_demos_at_agrees w sg ds dl st
                [mk_message system (Plain (prepare_instructions sg))] Hl) as Ha.
  destruct (format_demos_at_extends w sg ds st
              [mk_message system (Plain (prepare_instructions sg))])
    as (fresh & Hst & _).
  destruct (format_demos_at w sg ds st _) as [st1 r].
  simpl in Ha, Hst. subst st1. rewrite <- Ha.
  destruct r as [messages|e]; simpl; [|reflexivity].
  unfold format_chat_turn_at. rewrite (load_app _ fresh _ _ Hi).
  now destruct (format_chat_turn w (keys (input_fields sg)) i).
Qed.

(** ** Lemmas: character classes, trimming, lines *)

Lemma linebreak_isspace (c : ascii) :
  is_linebreak c = true -> isspace c = true.
Proof. by_cases_on_char c. Qed.

Lemma word_not_linebreak (c : ascii) :
  is_word c = true -> is_linebreak c = false.
Proof. by_cases_on_char c. Qed.

Lemma rstrip_append (a b : string) :
  rstrip (a ++ b) =
  match rstrip b with
  | "" => rstrip a
  | String x kept => a ++ String x kept
  end.
Proof.
  induction a as [|c a IH]; simpl.
  - now destruct (rstrip b).
  - rewrite IH. destruct (rstrip b) as [|x kept]; [reflexivity|].
    now destruct a.
Qed.

Lemma rstrip_append_fixed (a b : string) :
  rstrip b = b -> b <> "" -> rstrip (a ++ b) = a ++ b.
Proof.
  intros Hb Hne. rewrite rstrip_append, Hb.
  destruct b; [now elim Hne | reflexivity].
Qed.

Lemma rstrip_append_blank (a b : string) :
  rstrip b = "" -> rstrip (a ++ b) = rstrip a.
Proof. intros Hb. now rewrite rstrip_append, Hb. Qed.

Lemma rstrip_cons_fixed (c : ascii) (s : string) :
  rstrip (String c s) = String c s ->
  (s = "" /\ isspace c = false) \/ (s <> "" /\ rstrip s = s).
Proof.
  simpl. destruct (rstrip s) as [|x kept] eqn:E.
  - destruct (isspace c); [discriminate|]. intros [= <-]. now left.
  - intros [= <-]. right. split; [discriminate | reflexivity].
Qed.

Lemma rstrip_length (s : string) : length (rstrip s) <= length s.
Proof.
  induction s as [|c s IH]; simpl; [lia|].
  destruct (rstrip s); simpl in *; [destruct (isspace c); simpl; lia | lia].
Qed.

Lemma lstrip_length (s : string) :
  lstrip s = s \/ length (lstrip s) < length s.
Proof.
  induction s as [|c s IH]; simpl; [now left|].
  destruct (isspace c); [right | now left].
  destruct IH as [->|IH]; lia.
Qed.

Lemma strip_fixed (v : string) :
  strip v = v -> lstrip v = v /\ rstrip v = v.
Proof.
  unfold strip. intros H.
  destruct (lstrip_length v) as [E|E].
  - rewrite E in H. now split.
  - pose proof (rstrip_length (lstrip v)) as L. rewrite H in L. lia.
Qed.

Lemma strip_append_NL (v : string) : strip v = v -> strip (v ++ NL) = v.
Proof.
  intros H. destruct (strip_fixed v H) as [Hl Hr].
  destruct v as [|c v]; [reflexivity|].
  unfold strip. simpl in Hl |- *.
  destruct (isspace c) eqn:Hc.
  - pose proof (lstrip_length v) as [E|E]; rewrite Hl in E.
    + exfalso. clear -E. induction v as [|x v IH]; [discriminate|].
      injection E as -> E. now apply IH.
    + simpl in E. lia.
  - change (String c (v ++ NL)) with (String c v ++ NL).
    rewrite rstrip_append_blank; [exact Hr | reflexivity].
Qed.

Lemma join_two (sep p : string) (rest : list string) :
  rest <> [] -> join sep (p :: rest) = p ++ sep ++ join sep rest.
Proof. destruct rest; [now intros H; elim H | reflexivity]. Qed.

Lemma join_extend_first (sep : string) (c : ascii) (lines : list string) :
  lines <> [] -> join sep (extend_first c lines) = String c (join sep lines).
Proof.
  destruct lines as [|l [|l' rest]]; [now intros H; elim H | reflexivity..].
Qed.

Lemma join_snoc (sep : string) (lines : list string) (l : string) :
  lines <> [] -> join sep (lines ++ [l]) = join sep lines ++ sep ++ l.
Proof.
  induction lines as [|x lines IH]; [now intros H; elim H|]. intros _.
  destruct lines as [|y lines]; [reflexivity|].
  change ((x :: y :: lines) ++ [l])%list with (x :: ((y :: lines) ++ [l]))%list.
  rewrite join_two; [|now destruct lines].
  rewrite IH; [|discriminate].
  rewrite (join_two sep x (y :: lines)); [|discriminate].
  now rewrite !append_assoc.
Qed.

Lemma splitlines_nil (s : string) : splitlines s = [] -> s = "".
Proof.
  destruct s as [|c s]; [reflexivity|]. simpl.
  destruct (is_linebreak c).
  - destruct s as [|c' s']; [discriminate|].
    now destruct ((c =? CR)%char && (c' =? LF)%char).
  - now destruct (splitlines s).
Qed.

Lemma splitlines_LF (rest : string) :
  splitlines (String LF rest) = "" :: splitlines rest.
Proof. now destruct rest. Qed.

Lemma splitlines_plain (c : ascii) (rest : string) :
  is_linebreak c = false ->
  splitlines (String c rest) = extend_first c (splitlines rest).
Proof. intros H. simpl. now rewrite H. Qed.

(** The characters of a string with LF as only break, one at a time. *)
Lemma only_LF_breaks_cons (c : ascii) (s : string) :
  only_LF_breaks (String c s) = true ->
  (c = LF \/ is_linebreak c = false) /\ only_LF_breaks s = true.
Proof.
  simpl. intros H. apply andb_true_iff in H as [H1 H2]. split; [|exact H2].
  apply orb_true_iff in H1 as [H1|H1].
  - right. now destruct (is_linebreak c).
  - left. now apply Ascii.eqb_eq.
Qed.

Lemma no_breaks_only_LF (s : string) :
  no_breaks s = true -> only_LF_breaks s = true.
Proof.
  induction s as [|c s IH]; simpl; [reflexivity|]. intros H.
  apply andb_true_iff in H as [H1 H2]. now rewrite H1, (IH H2).
Qed.

Lemma no_breaks_append (a b : string) :
  no_breaks (a ++ b) = no_breaks a && no_breaks b.
Proof.
  induction a as [|c a IH]; simpl; [reflexivity|].
  now rewrite IH, andb_assoc.
Qed.

Lemma all_word_no_breaks (s : string) :
  all_word s = true -> no_breaks s = true.
Proof.
  induction s as [|c s IH]; simpl; [reflexivity|]. intros H.
  apply andb_true_iff in H as [H1 H2].
  now rewrite (word_not_linebreak _ H1), (IH H2).
Qed.

Lemma splitlines_append_NL (v t : string) :
  only_LF_breaks v = true ->
  splitlines (v ++ NL ++ t) = (splitlines (v ++ NL) ++ splitlines t)%list.
Proof.
  induction v as [|c v IH]; intros H.
  - change (splitlines (String LF t)
            = (splitlines (String LF "") ++ splitlines t)%list).
    now rewrite splitlines_LF.
  - apply only_LF_breaks_cons in H as [[->|Hc] Hv].
    + change (String LF v ++ NL ++ t) with (String LF (v ++ NL ++ t)).
      change (String LF v ++ NL) with (String LF (v ++ NL)).
      now rewrite !splitlines_LF, (IH Hv).
    + change (String c v ++ NL ++ t) with (String c (v ++ NL ++ t)).
      change (String c v ++ NL) with (String c (v ++ NL)).
      rewrite !(splitlines_plain _ _ Hc), (IH Hv).
      destruct (splitlines (v ++ NL)) as [|l ls] eqn:E; [|reflexivity].
      apply splitlines_nil in E. now destruct v.
Qed.

Lemma splitlines_line (m : string) :
  no_breaks m = true -> splitlines (m ++ NL) = [m].
Proof.
  induction m as [|c m IH]; simpl no_breaks; intros H; [reflexivity|].
  apply andb_true_iff in H as [Hc Hm].
  change (String c m ++ NL) with (String c (m ++ NL)).
  rewrite splitlines_plain, (IH Hm); [reflexivity|].
  now destruct (is_linebreak c).
Qed.

Lemma splitlines_one (m : string) :
  no_breaks m = true -> m <> "" -> splitlines m = [m].
Proof.
  induction m as [|c m IH]; simpl no_breaks; intros H Hne; [now elim Hne|].
  apply andb_true_iff in H as [Hc Hm].
  rewrite splitlines_plain; [|now destruct (is_linebreak c)].
  destruct m as [|c' m]; [reflexivity|].
  rewrite (IH Hm); [reflexivity | discriminate].
Qed.

Lemma join_splitlines_NL (v : string) :
  only_LF_breaks v = true -> join NL (splitlines (v ++ NL)) = v.
Proof.
  induction v as [|c v IH]; intros H; [reflexivity|].
  apply only_LF_breaks_cons in H as [Hc Hv].
  assert (Hne : splitlines (v ++ NL) <> []).
  { intros E. apply splitlines_nil in E. now destruct v. }
  change (String c v ++ NL) with (String c (v ++ NL)).
  destruct Hc as [->|Hc].
  - rewrite splitlines_LF, (join_two _ _ _ Hne), (IH Hv). reflexivity.
  - rewrite (splitlines_plain _ _ Hc), (join_extend_first _ _ _ Hne), (IH Hv).
    reflexivity.
Qed.

Lemma join_splitlines_fixed (v : string) :
  only_LF_breaks v = true -> rstrip v = v -> join NL (splitlines v) = v.
Proof.
  induction v as [|c v IH]; intros H Hr; [reflexivity|].
  apply only_LF_breaks_cons in H as [Hc Hv].
  apply rstrip_cons_fixed in Hr as [[-> Hs]|[Hne Hr]].
  - destruct Hc as [->|Hc]; [discriminate|].
    now rewrite (splitlines_plain _ _ Hc).
  - assert (Hl : splitlines v <> []).
    { intros E. now apply splitlines_nil in E. }
    destruct Hc as [->|Hc].
    + rewrite splitlines_LF, (join_two _ _ _ Hl), (IH Hv Hr). reflexivity.
    + rewrite (splitlines_plain _ _ Hc), (join_extend_first _ _ _ Hl),
        (IH Hv Hr). reflexivity.
Qed.

Lemma splitlines_NL_fixed (v : string) :
  only_LF_breaks v = true -> rstrip v = v -> v <> "" ->
  splitlines (v ++ NL) = splitlines v.
Proof.
  induction v as [|c v IH]; intros H Hr Hne; [now elim Hne|].
  apply only_LF_breaks_cons in H as [Hc Hv].
  change (String c v ++ NL) with (String c (v ++ NL)).
  apply rstrip_cons_fixed in Hr as [[-> Hs]|[Hv' Hr]].
  - destruct Hc as [->|Hc]; [discriminate|].
    now rewrite !(splitlines_plain _ _ Hc).
  - destruct Hc as [->|Hc].
    + now rewrite !splitlines_LF, (IH Hv Hr Hv').
    + now rewrite !(splitlines_plain _ _ Hc), (IH Hv Hr Hv').
Qed.

(** ** Lemmas: reading back what [format_fields] wrote *)

Lemma marker_no_breaks (k : string) :
  is_name k = true -> no_breaks (marker k) = true.
Proof.
  intros H. apply is_name_inv in H as [_ H]. unfold marker.
  now rewrite !no_breaks_append, (all_word_no_breaks _ H).
Qed.

Lemma marker_not_empty (k : string) : marker k <> "".
Proof. discriminate. Qed.

Lemma rstrip_marker (k : string) : rstrip (marker k) = marker k.
Proof.
  unfold marker. rewrite <- append_assoc.
  now apply rstrip_append_fixed.
Qed.

Lemma strip_marker (k : string) : strip (marker k) = marker k.
Proof. unfold strip. apply rstrip_marker. Qed.

Lemma scan_line_marker (sections : list (option string * list string))
    (k : string) :
  is_name k = true ->
  scan_line sections (marker k) = (sections ++ [(Some k, [])])%list.
Proof.
  intros H. unfold scan_line. rewrite strip_marker.
  rewrite <- (append_nil_r (marker k)).
  now rewrite (field_header_pattern_match_marker _ _ H).
Qed.

Lemma scan_plain_lines (lines : list string)
    (init : list (option string * list string)) (k : option string)
    (buf : list string) :
  Forall no_header lines ->
  fold_left scan_line lines (init ++ [(k, buf)])%list
  = (init ++ [(k, (buf ++ lines)%list)])%list.
Proof.
  intros H. revert buf. induction H as [|l lines Hl _ IH]; intros buf; simpl.
  - now rewrite app_nil_r.
  - unfold scan_line at 2. unfold no_header in Hl. rewrite Hl.
    rewrite append_to_last_snoc, IH, <- app_assoc. reflexivity.
Qed.

Lemma scan_block (lines : list string)
    (sections : list (option string * list string)) (k : string) :
  is_name k = true -> Forall no_header lines ->
  fold_left scan_line (marker k :: lines) sections
  = (sections ++ [(Some k, lines)])%list.
Proof.
  intros Hk Hl. simpl. rewrite (scan_line_marker _ _ Hk).
  now rewrite (scan_plain_lines _ _ _ _ Hl).
Qed.

Lemma no_header_lines (v : string) :
  has_header_line v = false -> Forall no_header (splitlines v).
Proof.
  unfold has_header_line. intros H. apply Forall_forall. intros l Hl.
  unfold no_header.
  destruct (field_header_pattern_match (strip l)) eqn:E; [|reflexivity].
  assert (existsb
            (fun l => match field_header_pattern_match (strip l) with
                      | Some _ => true
                      | None => false
                      end) (splitlines v) = true); [|congruence].
  apply existsb_exists. exists l. now rewrite E.
Qed.

Lemma plain_value_inv (v : string) :
  plain_value v = true ->
  strip v = v /\ only_LF_breaks v = true /\ has_header_line v = false.
Proof.
  unfold plain_value. intros H.
  apply andb_true_iff in H as [H H3]. apply andb_true_iff in H as [H1 H2].
  apply String.eqb_eq in H1. repeat split; try assumption.
  now destruct (has_header_line v).
Qed.

Lemma no_header_lines_NL (v : string) :
  plain_value v = true -> Forall no_header (splitlines (v ++ NL)).
Proof.
  intros H. apply plain_value_inv in H as (Hs & Ho & Hh).
  destruct (strip_fixed _ Hs) as [_ Hr].
  destruct v as [|c v].
  - constructor; [reflexivity | constructor].
  - rewrite splitlines_NL_fixed; try assumption; [|discriminate].
    now apply no_header_lines.
Qed.

Lemma field_block_text (k v : string) :
  field_block (k, VStr v) = marker k ++ NL ++ v.
Proof. unfold field_block, marker. simpl. now rewrite !append_assoc. Qed.

Lemma rendered_one (k v : string) : rendered [(k, v)] = marker k ++ NL ++ v.
Proof. apply field_block_text. Qed.

Lemma rendered_more (k v : string) (r : string * string)
    (rest : dict string) :
  rendered ((k, v) :: r :: rest)
  = marker k ++ NL ++ v ++ NL ++ NL ++ rendered (r :: rest).
Proof.
  unfold rendered. simpl map.
  change (join (NL ++ NL) (?b :: ?c :: ?l))
    with (b ++ (NL ++ NL) ++ join (NL ++ NL) (c :: l)).
  rewrite field_block_text. now rewrite !append_assoc.
Qed.

Lemma rendered_head (r : string * string) (rest : dict string) :
  exists s, rendered (r :: rest) = String "["%char s.
Proof.
  destruct r as [k v]. destruct rest as [|r' rest].
  - rewrite rendered_one. eexists. reflexivity.
  - rewrite rendered_more. eexists. reflexivity.
Qed.

Lemma rstrip_append_kept (a b : string) :
  rstrip b <> "" -> rstrip (a ++ b) = a ++ rstrip b.
Proof.
  intros H. rewrite rstrip_append.
  destruct (rstrip b); [now elim H | reflexivity].
Qed.

Lemma append_not_empty (a b : string) : b <> "" -> a ++ b <> "".
Proof. intros H. destruct a; [exact H | discriminate]. Qed.

Lemma rendered_kept (r : string * string) (rest : dict string) :
  rstrip (rendered (r :: rest)) <> "".
Proof.
  destruct (rendered_head r rest) as [s ->]. simpl.
  now destruct (rstrip s).
Qed.

Lemma lines_last (k v : string) :
  is_name k = true -> plain_value v = true ->
  splitlines (rstrip (marker k ++ NL ++ v)) = marker k :: splitlines v.
Proof.
  intros Hk Hv. apply plain_value_inv in Hv as (Hs & Ho & _).
  destruct (strip_fixed _ Hs) as [_ Hr].
  pose proof (marker_no_breaks _ Hk) as Hm.
  destruct v as [|c v].
  - rewrite rstrip_append_blank, rstrip_marker; [|reflexivity].
    apply splitlines_one; [exact Hm | apply marker_not_empty].
  - rewrite <- append_assoc, rstrip_append_fixed, append_assoc;
      [|exact Hr|discriminate].
    rewrite splitlines_append_NL; [|now apply no_breaks_only_LF].
    now rewrite (splitlines_line _ Hm).
Qed.

Lemma lines_more (k v t : string) :
  is_name k = true -> only_LF_breaks v = true -> rstrip t <> "" ->
  splitlines (rstrip (marker k ++ NL ++ v ++ NL ++ NL ++ t))
  = marker k :: (splitlines (v ++ NL) ++ "" :: splitlines (rstrip t))%list.
Proof.
  intros Hk Hv Ht. pose proof (marker_no_breaks _ Hk) as Hm.
  assert (E : rstrip (marker k ++ NL ++ v ++ NL ++ NL ++ t)
              = marker k ++ NL ++ v ++ NL ++ NL ++ rstrip t).
  { repeat (rewrite rstrip_append_kept;
            [f_equal | repeat (rewrite rstrip_append_kept;
                               [apply append_not_empty|]); exact Ht]). }
  rewrite E.
  rewrite splitlines_append_NL; [|now apply no_breaks_only_LF].
  rewrite (splitlines_line _ Hm).
  rewrite (splitlines_append_NL v _ Hv).
  change (NL ++ rstrip t) with (String LF (rstrip t)).
  now rewrite splitlines_LF.
Qed.

Lemma scan_rendered (fields : dict string) :
  Forall (fun kv => plain_field kv = true) fields -> fields <> [] ->
  forall sections,
    map join_section
      (fold_left scan_line (splitlines (rstrip (rendered fields))) sections)
    = (map join_section sections ++ as_sections fields)%list.
Proof.
  induction 1 as [|[k v] rest Hkv Hrest IH]; intros Hne sections;
    [now elim Hne|].
  unfold plain_field in Hkv. simpl in Hkv.
  apply andb_true_iff in Hkv as [Hk Hv].
  pose proof (plain_value_inv _ Hv) as (Hs & Ho & Hh).
  destruct (strip_fixed _ Hs) as [_ Hr].
  destruct rest as [|r rest].
  - rewrite rendered_one, (lines_last _ _ Hk Hv).
    rewrite (scan_block _ _ _ Hk (no_header_lines _ Hh)).
    rewrite map_app. simpl. unfold join_section at 2. simpl.
    now rewrite (join_splitlines_fixed _ Ho Hr), Hs.
  - rewrite rendered_more.
    rewrite (lines_more _ _ _ Hk Ho (rendered_kept r rest)).
    change (marker k :: (splitlines (v ++ NL) ++ "" :: ?tl))%list
      with ((marker k :: splitlines (v ++ NL)) ++ [""] ++ tl)%list.
    rewrite app_assoc, fold_left_app.
    change ((marker k :: splitlines (v ++ NL)) ++ [""])%list
      with (marker k :: (splitlines (v ++ NL) ++ [""]))%list.
    rewrite (scan_block _ _ _ Hk).
    + rewrite IH; [|discriminate]. rewrite map_app. simpl.
      rewrite <- app_assoc. simpl. do 2 f_equal.
      unfold join_section. simpl. f_equal.
      rewrite join_snoc.
      * rewrite (join_splitlines_NL _ Ho), append_nil_r.
        now apply strip_append_NL.
      * intros E. apply splitlines_nil in E. now destruct v.
    + apply Forall_app. split; [now apply no_header_lines_NL|].
      constructor; [reflexivity | constructor].
Qed.

Lemma parse_sections_rendered (fields : dict string) :
  Forall (fun kv => plain_field kv = true) fields ->
  parse_sections (format_fields (as_values fields))
  = (None, "") :: as_sections fields.
Proof.
  intros H. destruct fields as [|r rest]; [reflexivity|].
  unfold parse_sections, scan, format_fields, strip.
  fold (rendered (r :: rest)).
  destruct (rendered_head r rest) as [s E].
  assert (El : lstrip (rendered (r :: rest)) = rendered (r :: rest))
    by now rewrite E.
  rewrite El, (scan_rendered _ H); [reflexivity | discriminate].
Qed.

Lemma collect_distinct (signature : Signature) (fields acc : dict string) :
  NoDup (keys acc ++ keys fields) ->
  (forall k, In k (keys fields) ->
             dict_mem k (output_fields signature) = true) ->
  fold_left (collect_section signature) (as_sections fields) acc
  = (acc ++ fields)%list.
Proof.
  revert acc. induction fields as [|[k v] rest IH]; intros acc Hnd Hin; simpl.
  - now rewrite app_nil_r.
  - unfold collect_section at 2. simpl.
    assert (Hk : dict_mem k acc = false).
    { apply mem_false. intros Hk. simpl in Hnd.
      apply NoDup_remove_2 in Hnd. apply Hnd, in_or_app. now left. }
    rewrite Hk, (Hin k (or_introl eq_refl)). simpl.
    rewrite (keys_dict_set_fresh _ _ _ Hk), IH.
    + now rewrite <- app_assoc.
    + unfold keys in *. rewrite map_app, <- app_assoc. exact Hnd.
    + intros x Hx. apply Hin. now right.
Qed.

(** ** The round trip *)

(** C1, as amended. For every dictionary of distinct field names, each one
    or more word characters, with text values that are trimmed already,
    have LF as their only line boundary and have no line that, once
    trimmed, begins with a marker: parsing what [format_fields] renders,
    with the dictionary's own names as the expected output fields, returns
    exactly that dictionary. *)
Theorem parse_format_fields_round_trip (signature : Signature)
    (fields : dict string) :
  NoDup (keys fields) ->
  Forall (fun kv => plain_field kv = true) fields ->
  (forall k, In k (keys (output_fields signature)) <-> In k (keys fields)) ->
  parse signature (format_fields (as_values fields)) = Ok fields.
Proof.
  intros Hnd Hplain Hkeys. unfold parse.
  rewrite (parse_sections_rendered _ Hplain).
  unfold collect_fields. simpl fold_left.
  change (collect_section signature [] (None, "")) with (@nil (string * string)).
  rewrite collect_distinct; [simpl | exact Hnd |].
  - assert (E : keys_eq (keys fields) (keys (output_fields signature)) = true).
    { apply keys_eq_iff. intros k. symmetry. apply Hkeys. }
    now rewrite E.
  - intros k Hk. apply mem_In, Hkeys, Hk.
Qed.

Lemma parse_format_fields_round_trip_witness :
  parse two_fields_signature (format_fields (as_values two_fields))
  = Ok two_fields.
Proof.
  apply (parse_format_fields_round_trip two_fields_signature two_fields).
  - repeat constructor; simpl; intuition discriminate.
  - repeat constructor.
  - intros k. simpl. tauto.
Defined.

(** C1, as stated, fails: a value with a leading blank has no line that
    matches (or even begins with) a marker, and comes back trimmed. *)
Lemma round_trip_trims_values :
  has_header_line " x" = false
  /\ parse qa_signature (format_fields (as_values [("answer", " x")]))
     = Ok [("answer", "x")]
  /\ parse qa_signature (format_fields (as_values [("answer", " x")]))
     <> Ok [("answer", " x")].
Proof. repeat split; [vm_compute; discriminate]. Qed.

(** ** [enumerate_fields] *)

Lemma enumerate_part_line (idx : nat) (k : string) (v : FieldSpec) :
  enumerate_part idx k v = catalog_line (idx + 1) k v.
Proof.
  unfold enumerate_part, catalog_line. rewrite !append_assoc.
  now destruct (desc v =? "${" ++ k ++ "}").
Qed.

Lemma enumerate_parts_length (idx : nat) (fields : dict FieldSpec) :
  List.length (enumerate_parts idx fields) = List.length fields.
Proof.
  revert idx. induction fields as [|[k v] rest IH]; intros idx; simpl;
    [reflexivity | now rewrite IH].
Qed.

Lemma enumerate_parts_nth (idx i : nat) (fields : dict FieldSpec)
    (k : string) (v : FieldSpec) :
  nth_error fields i = Some (k, v) ->
  nth_error (enumerate_parts idx fields) i
  = Some (catalog_line (idx + i + 1) k v).
Proof.
  revert idx i. induction fields as [|[k' v'] rest IH]; intros idx i H.
  - now destruct i.
  - destruct i as [|i]; simpl in *.
    + injection H as -> ->. now rewrite enumerate_part_line, Nat.add_0_r.
    + rewrite (IH (S idx) i H). do 2 f_equal. lia.
Qed.

Lemma enumerate_parts_snoc (idx : nat) (init : dict FieldSpec) (k : string)
    (v : FieldSpec) :
  enumerate_parts idx (init ++ [(k, v)])%list
  = (enumerate_parts idx init
     ++ [catalog_line (idx + List.length init + 1) k v])%list.
Proof.
  revert idx. induction init as [|[k' v'] init IH]; intros idx; simpl.
  - now rewrite enumerate_part_line, Nat.add_0_r.
  - rewrite IH.
    replace (S idx + List.length init + 1)
      with (idx + S (List.length init) + 1) by lia.
    reflexivity.
Qed.

Lemma rstrip_join_last (sep p : string) (parts : list string) :
  rstrip p = p -> p <> "" ->
  rstrip (join sep (parts ++ [p])) = join sep (parts ++ [p]).
Proof.
  intros Hp Hne. destruct parts as [|x parts]; [exact Hp|].
  rewrite join_snoc; [|discriminate].
  rewrite <- !append_assoc. now apply rstrip_append_fixed.
Qed.

Lemma lstrip_enumerate_parts (fields : dict FieldSpec) :
  lstrip (join NL (enumerate_parts 0 fields))
  = join NL (enumerate_parts 0 fields).
Proof.
  destruct fields as [|[k v] rest]; [reflexivity|].
  simpl enumerate_parts. now destruct (enumerate_parts 1 rest).
Qed.

Lemma rstrip_catalog_line (n : nat) (k : string) (v : FieldSpec) :
  desc v = "${" ++ k ++ "}" \/ (desc v <> "" /\ rstrip (desc v) = desc v) ->
  rstrip (catalog_line n k v) = catalog_line n k v
  /\ catalog_line n k v <> "".
Proof.
  intros H. unfold catalog_line.
  destruct (String.eqb_spec (desc v) ("${" ++ k ++ "}")) as [E|N].
  - rewrite <- !append_assoc, append_nil_r. split.
    + now apply rstrip_append_fixed.
    + now apply append_not_empty.
  - destruct H as [H|[Hne Hr]]; [contradiction|].
    rewrite <- !append_assoc. split.
    + now apply rstrip_append_fixed.
    + now apply append_not_empty.
Qed.

(** C8, as amended. [enumerate_fields] builds one line per field, in
    order and numbered from 1, of the form [<n>. `<name>` (<type name>)],
    followed by [: <description>] unless the description is the sentinel
    [${<name>}]; the lines are joined by newlines and the whole is
    trimmed. Trimming takes the whitespace at the end of the last line
    away, so the last description is included as it is only when it is
    not empty and does not end in whitespace. *)
Theorem enumerate_fields_catalog (fields : dict FieldSpec) :
  List.length (enumerate_parts 0 fields) = List.length fields
  /\ (forall i k v,
        nth_error fields i = Some (k, v) ->
        nth_error (enumerate_parts 0 fields) i
        = Some (catalog_line (i + 1) k v))
  /\ enumerate_fields fields = rstrip (join NL (enumerate_parts 0 fields))
  /\ (forall init k v,
        fields = (init ++ [(k, v)])%list ->
        desc v = "${" ++ k ++ "}"
        \/ (desc v <> "" /\ rstrip (desc v) = desc v) ->
        enumerate_fields fields = join NL (enumerate_parts 0 fields)).
Proof.
  assert (E : enumerate_fields fields
              = rstrip (join NL (enumerate_parts 0 fields))).
  { unfold enumerate_fields, strip. now rewrite lstrip_enumerate_parts. }
  repeat split.
  - apply enumerate_parts_length.
  - intros i k v H. now rewrite (enumerate_parts_nth 0 i fields k v H).
  - exact E.
  - intros init k v -> H. rewrite E, enumerate_parts_snoc.
    destruct (rstrip_catalog_line (0 + List.length init + 1) k v H)
      as [Hr Hne].
    now apply rstrip_join_last.
Qed.

Lemma enumerate_fields_catalog_witness :
  enumerate_fields (output_fields two_fields_signature)
  = "1. `answer` (str)" ++ NL ++ "2. `reasoning` (str)".
Proof.
  destruct (enumerate_fields_catalog (output_fields two_fields_signature))
    as (_ & _ & _ & H).
  rewrite (H [("answer", str_field "${answer}")]
             "reasoning" (str_field "${reasoning}") eq_refl).
  - reflexivity.
  - left. reflexivity.
Defined.

(** C8, as stated, fails: a description that ends in a blank is not the
    sentinel, and is not included as it is. *)
Lemma enumerate_fields_trims_last_description :
  desc (str_field "the answer ") <> "${" ++ "answer" ++ "}"
  /\ enumerate_fields [("answer", str_field "the answer ")]
     = "1. `answer` (str): the answer"
  /\ enumerate_fields [("answer", str_field "the answer ")]
     <> catalog_line 1 "answer" (str_field "the answer ").
Proof. repeat split; vm_compute; discriminate. Qed.

(** ** The examples of the specification, run *)

Example format_question_answer :
  format offline qa_signature [qa_demo] qa_inputs
  = Ok [mk_message system (Plain (prepare_instructions qa_signature));
        mk_message user
          (Parts [Text (marker "question" ++ NL ++ "2+2?")]);
        mk_message assistant
          (Parts [Text (marker "answer" ++ NL ++ "4" ++ NL ++ NL
                        ++ marker "completed")]);
        mk_message user
          (Parts [Text (marker "question" ++ NL ++ "3+3?")])].
Proof. vm_compute. reflexivity. Qed.

Example parse_answer_then_completed :
  parse qa_signature
    (marker "answer" ++ NL ++ "4" ++ NL ++ NL ++ marker "completed" ++ NL)
  = Ok [("answer", "4")].
Proof. vm_compute. reflexivity. Qed.

Example parse_without_answer :
  parse qa_signature (marker "completed" ++ NL)
  = Raise (ValueError_expected ["answer"] []).
Proof. vm_compute. reflexivity. Qed.

Example splitlines_boundaries :
  splitlines ("a" ++ String CR NL ++ "b" ++ NL ++ NL ++ String CR "c" ++ NL)
  = ["a"; "b"; ""; ""; "c"].
Proof. vm_compute. reflexivity. Qed.

(** ** Further properties

    *** Trimming is idempotent; what the renderers return is trimmed *)

Lemma rstrip_idempotent (s : string) : rstrip (rstrip s) = rstrip s.
Proof.
  induction s as [|c s IH]; simpl; [reflexivity|].
  destruct (rstrip s) as [|x kept] eqn:E.
  - destruct (isspace c) eqn:Hc; simpl; [reflexivity | now rewrite Hc].
  - change (rstrip (String c (String x kept)))
      with (match rstrip (String x kept) with
            | "" => if isspace c then "" else String c ""
            | k => String c k
            end).
    now rewrite IH.
Qed.

Lemma lstrip_idempotent (s : string) : lstrip (lstrip s) = lstrip s.
Proof.
  induction s as [|c s IH]; simpl; [reflexivity|].
  destruct (isspace c) eqn:Hc; [exact IH | simpl; now rewrite Hc].
Qed.

Lemma lstrip_rstrip (t : string) : lstrip t = t -> lstrip (rstrip t) = rstrip t.
Proof.
  destruct t as [|c t]; [reflexivity|]. simpl.
  destruct (isspace c) eqn:Hc.
  - intros H. pose proof (lstrip_length t) as [E|E]; rewrite H in E.
    + exfalso. clear -E. revert c E. induction t as [|x t IH]; intros c E;
        [discriminate|]. injection E as -> E. now apply (IH x).
    + simpl in E. lia.
  - intros _. destruct (rstrip t); simpl; now rewrite Hc.
Qed.

Lemma strip_idempotent (s : string) : strip (strip s) = strip s.
Proof.
  unfold strip.
  rewrite (lstrip_rstrip (lstrip s) (lstrip_idempotent s)).
  apply rstrip_idempotent.
Qed.

(** X1. What [format_fields], [enumerate_fields] and
    [prepare_instructions] return has no whitespace at either end:
    trimming it again changes nothing. *)
Theorem rendered_text_is_trimmed (signature : Signature)
    (fields : dict value) (specs : dict FieldSpec) :
  strip (format_fields fields) = format_fields fields
  /\ strip (enumerate_fields specs) = enumerate_fields specs
  /\ strip (prepare_instructions signature) = prepare_instructions signature.
Proof. repeat split; apply strip_idempotent. Qed.

(** *** The first loop of [parse] loses no line *)

Lemma scan_line_snoc (init : list (option string * list string))
    (k : option string) (buf : list string) (line : string) :
  scan_line (init ++ [(k, buf)])%list line
  = match field_header_pattern_match (strip line) with
    | Some name => ((init ++ [(k, buf)]) ++ [(Some name, [])])%list
    | None => (init ++ [(k, (buf ++ [line])%list)])%list
    end.
Proof.
  unfold scan_line. destruct (field_header_pattern_match (strip line));
    [reflexivity | apply append_to_last_snoc].
Qed.

Lemma concat_buffers_snoc (init : list (option string * list string))
    (k : option string) (buf : list string) :
  List.concat (map snd (init ++ [(k, buf)])%list)
  = (List.concat (map snd init) ++ buf)%list.
Proof. rewrite map_app, List.concat_app. simpl. now rewrite app_nil_r. Qed.

Lemma scan_lines_invariant (lines : list string)
    (init : list (option string * list string)) (k : option string)
    (buf : list string) :
  let out := fold_left scan_line lines (init ++ [(k, buf)])%list in
  List.concat (map snd out)
  = (List.concat (map snd (init ++ [(k, buf)])%list)
     ++ filter (fun l => negb (is_header l)) lines)%list
  /\ map fst out
     = (map fst (init ++ [(k, buf)]) ++ map Some (header_names lines))%list.
Proof.
  revert init k buf. induction lines as [|l lines IH]; intros init k buf.
  - simpl. now rewrite !app_nil_r.
  - simpl fold_left. rewrite scan_line_snoc. unfold is_header, header_names.
    simpl. destruct (field_header_pattern_match (strip l)) as [name|]; simpl.
    + destruct (IH (init ++ [(k, buf)])%list (Some name) []) as [H1 H2].
      simpl in H1, H2. rewrite H1, H2. split.
      * now rewrite concat_buffers_snoc, app_nil_r.
      * rewrite (map_app fst (init ++ [(k, buf)])%list). simpl.
        now rewrite <- app_assoc.
    + destruct (IH init k (buf ++ [l])%list) as [H1 H2].
      simpl in H1, H2. rewrite H1, H2. split.
      * rewrite !concat_buffers_snoc, <- !app_assoc. reflexivity.
      * now rewrite !map_app.
Qed.

Lemma section_names_map_Some (names : list string)
    (sections : list (option string * string)) :
  map fst sections = None :: map Some names ->
  section_names sections = names.
Proof.
  destruct sections as [|[k v] sections]; [discriminate|].
  simpl. intros [= -> H]. revert names H.
  induction sections as [|[k' v'] sections IH]; intros names H.
  - now destruct names.
  - destruct names as [|n names]; [discriminate|].
    simpl in H. injection H as -> H. simpl. f_equal. now apply IH.
Qed.

(** X2. The first loop of [parse] loses and reorders nothing: the buffers
    of the sections, one after the other, are the lines of the completion
    that open no section, in order; the first section is the anonymous one
    and the named sections are the header lines' names, in order. *)
Theorem scan_keeps_every_line (completion : string) :
  List.concat (map snd (scan completion))
  = filter (fun l => negb (is_header l)) (splitlines completion)
  /\ map fst (scan completion)
     = None :: map Some (header_names (splitlines completion))
  /\ section_names (parse_sections completion)
     = header_names (splitlines completion).
Proof.
  destruct (scan_lines_invariant (splitlines completion) [] None [])
    as [H1 H2].
  simpl in H1, H2. unfold scan. repeat split; [exact H1 | exact H2 |].
  apply section_names_map_Some. unfold parse_sections, scan.
  rewrite map_map. unfold join_section. simpl. exact H2.
Qed.

(** *** When [parse] returns, and in which order *)

Lemma expected_present_iff (signature : Signature) (completion : string) :
  keys_eq (keys (collect_fields signature (parse_sections completion)))
    (keys (output_fields signature)) = true <->
  (forall k, In k (keys (output_fields signature)) ->
             In k (section_names (parse_sections completion))).
Proof.
  rewrite keys_eq_iff. split.
  - intros H k Hk. apply H in Hk. apply collect_fields_keys in Hk.
    unfold recovered_names in Hk. now apply filter_In in Hk.
  - intros H k. rewrite collect_fields_keys. unfold recovered_names.
    rewrite filter_In. unfold dict_mem. rewrite mem_In. split.
    + tauto.
    + intros Hk. split; [now apply H | exact Hk].
Qed.

(** X3. [parse] returns a dictionary if and only if every output field of
    the signature has a header line in the completion. Header lines with
    other names are skipped: on their own they never make [parse] raise. *)
Theorem parse_returns_iff_expected_present (signature : Signature)
    (completion : string) :
  (exists fields, parse signature completion = Ok fields) <->
  (forall k, In k (keys (output_fields signature)) ->
             In k (header_names (splitlines completion))).
Proof.
  destruct (scan_keeps_every_line completion) as (_ & _ & <-).
  rewrite <- expected_present_iff. unfold parse.
  destruct (keys_eq _ _); simpl; split; intros H.
  - reflexivity.
  - eexists. reflexivity.
  - destruct H as [fields H]. discriminate.
  - discriminate.
Qed.

Lemma parse_returns_iff_expected_present_witness :
  exists fields,
    parse qa_signature
      (marker "note" ++ NL ++ "x" ++ NL ++ marker "answer" ++ NL ++ "4")
    = Ok fields.
Proof.
  apply (proj2 (parse_returns_iff_expected_present qa_signature
                  (marker "note" ++ NL ++ "x" ++ NL
                   ++ marker "answer" ++ NL ++ "4"))).
  intros k [<-|[]]. vm_compute. right. left. reflexivity.
Defined.

Lemma distinct_NoDup (names : list string) : NoDup (distinct names).
Proof.
  induction names as [|k names IH]; simpl; constructor.
  - intros H. apply filter_In in H as [_ H].
    now rewrite String.eqb_refl in H.
  - now apply NoDup_filter.
Qed.

Lemma collect_keys_order (signature : Signature)
    (sections : list (option string * string)) (acc : dict string) :
  keys (fold_left (collect_section signature) sections acc)
  = (keys acc
     ++ filter (fun k => negb (dict_mem k acc))
          (distinct (filter (fun k => dict_mem k (output_fields signature))
                       (section_names sections))))%list.
Proof.
  revert acc. induction sections as [|[[k|] v] rest IH]; intros acc; simpl.
  - now rewrite app_nil_r.
  - rewrite IH. unfold collect_section. simpl.
    destruct (dict_mem k (output_fields signature)) eqn:Ho; simpl.
    + destruct (dict_mem k acc) eqn:Ha; simpl.
      * f_equal. rewrite filter_twice. apply filter_ext. intros x.
        destruct (String.eqb_spec x k) as [->|N]; simpl; [now rewrite Ha|].
        reflexivity.
      * rewrite (keys_dict_set_fresh _ _ _ Ha). unfold keys at 1.
        rewrite map_app, <- app_assoc. simpl. do 2 f_equal.
        rewrite filter_twice. apply filter_ext. intros x.
        rewrite dict_mem_snoc.
        destruct (String.eqb x k), (dict_mem x acc); reflexivity.
    + now rewrite andb_false_r.
  - apply IH.
Qed.

(** X4. The dictionary [parse] returns has each expected name once, in the
    order in which the names first appear on header lines of the
    completion (not in the order of the signature). *)
Theorem parse_keys_in_order_of_appearance (signature : Signature)
    (completion : string) (fields : dict string) :
  parse signature completion = Ok fields ->
  keys fields
  = distinct (filter (fun k => dict_mem k (output_fields signature))
                (header_names (splitlines completion)))
  /\ NoDup (keys fields).
Proof.
  unfold parse. intros H. destruct (negb _); [discriminate|].
  injection H as <-.
  assert (E : keys (collect_fields signature (parse_sections completion))
              = distinct (filter (fun k => dict_mem k (output_fields signature))
                            (header_names (splitlines completion)))).
  { unfold collect_fields. rewrite collect_keys_order. simpl.
    destruct (scan_keeps_every_line completion) as (_ & _ & ->).
    apply forallb_filter_id. apply forallb_forall. reflexivity. }
  split; [exact E | rewrite E; apply distinct_NoDup].
Qed.

Lemma parse_keys_in_order_of_appearance_witness :
  keys [("reasoning", "r"); ("answer", "4")] = ["reasoning"; "answer"]
  /\ NoDup (keys [("reasoning", "r"); ("answer", "4")]).
Proof.
  refine (parse_keys_in_order_of_appearance two_fields_signature
            (marker "reasoning" ++ NL ++ "r" ++ NL ++ marker "answer" ++ NL
             ++ "4" ++ NL ++ marker "reasoning" ++ NL ++ "again")
            [("reasoning", "r"); ("answer", "4")] _).
  reflexivity.
Defined.

(** *** The values [parse] returns *)

Lemma splitlines_no_breaks_upto (n : nat) (s : string) :
  length s <= n -> Forall (fun l => no_breaks l = true) (splitlines s).
Proof.
  revert s. induction n as [|n IH]; intros s Hs.
  - destruct s; [constructor | simpl in Hs; lia].
  - destruct s as [|c s]; [constructor|]. simpl in Hs. simpl.
    destruct (is_linebreak c) eqn:Hc.
    + destruct s as [|c' s']; [repeat constructor|].
      simpl in Hs.
      destruct ((c =? CR)%char && (c' =? LF)%char); constructor;
        try reflexivity; apply IH; simpl; lia.
    + assert (H : Forall (fun l => no_breaks l = true) (splitlines s))
        by (apply IH; lia).
      destruct (splitlines s) as [|l ls]; simpl.
      * constructor; [simpl; now rewrite Hc | constructor].
      * inversion H as [|? ? Hl Hls]; subst.
        constructor; [simpl; now rewrite Hc, Hl | exact Hls].
Qed.

Lemma splitlines_no_breaks (s : string) :
  Forall (fun l => no_breaks l = true) (splitlines s).
Proof. apply (splitlines_no_breaks_upto (length s)). lia. Qed.

Lemma only_LF_breaks_append (a b : string) :
  only_LF_breaks (a ++ b) = only_LF_breaks a && only_LF_breaks b.
Proof.
  induction a as [|c a IH]; simpl; [reflexivity|].
  now rewrite IH, andb_assoc.
Qed.

Lemma only_LF_breaks_join (lines : list string) :
  Forall (fun l => no_breaks l = true) lines ->
  only_LF_breaks (join NL lines) = true.
Proof.
  induction 1 as [|l lines Hl _ IH]; [reflexivity|].
  destruct lines as [|l' lines]; simpl join.
  - now apply no_breaks_only_LF.
  - rewrite !only_LF_breaks_append, (no_breaks_only_LF _ Hl). exact IH.
Qed.

Lemma only_LF_breaks_lstrip (s : string) :
  only_LF_breaks s = true -> only_LF_breaks (lstrip s) = true.
Proof.
  induction s as [|c s IH]; simpl; [reflexivity|]. intros H.
  destruct (isspace c); [|exact H].
  apply andb_true_iff in H as [_ H]. now apply IH.
Qed.

Lemma only_LF_breaks_rstrip (s : string) :
  only_LF_breaks s = true -> only_LF_breaks (rstrip s) = true.
Proof.
  induction s as [|c s IH]; simpl; [reflexivity|]. intros H.
  apply andb_true_iff in H as [Hc Hs]. specialize (IH Hs).
  destruct (rstrip s) as [|x kept].
  - destruct (isspace c); [reflexivity | simpl; now rewrite Hc].
  - simpl in *. now rewrite Hc, IH.
Qed.

Lemma collect_In (signature : Signature)
    (sections : list (option string * string)) (acc : dict string)
    (k v : string) :
  In (k, v) (fold_left (collect_section signature) sections acc) ->
  In (k, v) acc \/ In (Some k, v) sections.
Proof.
  revert acc. induction sections as [|[[k'|] v'] rest IH]; intros acc H;
    simpl in *.
  - now left.
  - apply IH in H as [H|H]; [|now right; right].
    unfold collect_section in H. simpl in H.
    destruct (dict_mem k' acc) eqn:Ha; simpl in H; [now left|].
    destruct (dict_mem k' (output_fields signature)); [|now left].
    rewrite (keys_dict_set_fresh _ _ _ Ha) in H.
    apply in_app_or in H as [H|[[= -> ->]|[]]]; [now left|].
    right. now left.
  - apply IH in H as [H|H]; [now left | now right; right].
Qed.

Lemma scan_buffers_are_lines (completion : string) (k : option string)
    (buf : list string) (l : string) :
  In (k, buf) (scan completion) -> In l buf -> In l (splitlines completion).
Proof.
  intros Hk Hl.
  destruct (scan_lines_invariant (splitlines completion) [] None [])
    as [H _].
  simpl in H. fold (scan completion) in H.
  assert (Hc : In l (List.concat (map snd (scan completion)))).
  { apply in_concat. exists buf. split; [|exact Hl].
    apply in_map_iff. now exists (k, buf). }
  rewrite H in Hc. now apply filter_In in Hc.
Qed.

(** X5. Every value [parse] returns is trimmed, and has LF as its only
    line boundary: the line endings of the completion (CR, CR LF, form
    feed ...) are all turned into LF. *)
Theorem parse_values_are_normalised (signature : Signature)
    (completion : string) (fields : dict string) (k v : string) :
  parse signature completion = Ok fields ->
  In (k, v) fields ->
  strip v = v /\ only_LF_breaks v = true.
Proof.
  unfold parse. intros H Hin. destruct (negb _); [discriminate|].
  injection H as <-. unfold collect_fields in Hin.
  apply collect_In in Hin as [[]|Hin].
  unfold parse_sections in Hin.
  apply in_map_iff in Hin as ([k' buf] & [= _ <-] & Hbuf). simpl.
  split; [apply strip_idempotent|].
  unfold strip. apply only_LF_breaks_rstrip, only_LF_breaks_lstrip.
  apply only_LF_breaks_join. apply Forall_forall. intros l Hl.
  pose proof (splitlines_no_breaks completion) as Hall.
  rewrite Forall_forall in Hall. apply Hall.
  now apply (scan_buffers_are_lines completion k' buf).
Qed.

Lemma parse_values_are_normalised_witness :
  strip ("a" ++ NL ++ "b") = "a" ++ NL ++ "b"
  /\ only_LF_breaks ("a" ++ NL ++ "b") = true.
Proof.
  refine (parse_values_are_normalised qa_signature
            (marker "answer" ++ String CR NL ++ " a" ++ String CR "b  ")
            [("answer", "a" ++ NL ++ "b")] "answer" ("a" ++ NL ++ "b") _ _).
  - reflexivity.
  - left. reflexivity.
Defined.

(** *** Line endings and text before the first header *)

Lemma splitlines_to_crlf (s : string) :
  only_LF_breaks s = true -> splitlines (to_crlf s) = splitlines s.
Proof.
  induction s as [|c s IH]; intros H; [reflexivity|].
  apply only_LF_breaks_cons in H as [[->|Hc] Hs].
  - rewrite splitlines_LF. simpl. now rewrite (IH Hs).
  - simpl to_crlf. destruct (Ascii.eqb_spec c LF) as [->|N]; [discriminate|].
    now rewrite !(splitlines_plain _ _ Hc), (IH Hs).
Qed.

(** X6. Windows line endings do not matter to [parse]: a completion whose
    line boundaries are LF, and the same completion with every LF written
    as CR LF, give the same result. *)
Theorem parse_ignores_crlf (signature : Signature) (completion : string) :
  only_LF_breaks completion = true ->
  parse signature (to_crlf completion) = parse signature completion.
Proof.
  intros H. unfold parse, parse_sections, scan.
  now rewrite (splitlines_to_crlf _ H).
Qed.

Lemma parse_ignores_crlf_witness :
  parse qa_signature
    (marker "answer" ++ String CR NL ++ "4" ++ String CR NL
     ++ marker "completed")
  = Ok [("answer", "4")].
Proof.
  exact (parse_ignores_crlf qa_signature
           (marker "answer" ++ NL ++ "4" ++ NL ++ marker "completed")
           eq_refl).
Defined.

Lemma splitlines_append_NL_cases (v : string) :
  only_LF_breaks v = true ->
  splitlines (v ++ NL) = splitlines v
  \/ splitlines (v ++ NL) = (splitlines v ++ [""])%list.
Proof.
  induction v as [|c v IH]; intros H; [now right|].
  apply only_LF_breaks_cons in H as [Hc Hv]. specialize (IH Hv).
  change (String c v ++ NL) with (String c (v ++ NL)).
  destruct Hc as [->|Hc].
  - rewrite !splitlines_LF. destruct IH as [->| ->]; [now left | now right].
  - rewrite !(splitlines_plain _ _ Hc). destruct IH as [->|E]; [now left|].
    rewrite E. destruct (splitlines v) as [|l ls] eqn:El.
    + apply splitlines_nil in El. subst v. now left.
    + now right.
Qed.

Lemma no_header_preamble (pre : string) :
  only_LF_breaks pre = true -> has_header_line pre = false ->
  Forall no_header (splitlines (pre ++ NL)).
Proof.
  intros Ho Hh. pose proof (no_header_lines _ Hh) as H.
  destruct (splitlines_append_NL_cases _ Ho) as [->| ->]; [exact H|].
  apply Forall_app. split; [exact H|].
  constructor; [reflexivity | constructor].
Qed.

Lemma scan_head_buffer (lines : list string) (k : option string)
    (b1 b2 : list string) (tl : list (option string * list string)) :
  exists b1' b2' tl',
    fold_left scan_line lines ((k, b1) :: tl) = (k, b1') :: tl'
    /\ fold_left scan_line lines ((k, b2) :: tl) = (k, b2') :: tl'.
Proof.
  revert b1 b2 tl. induction lines as [|l lines IH]; intros b1 b2 tl.
  - now exists b1, b2, tl.
  - simpl. unfold scan_line at 2 4.
    destruct (field_header_pattern_match (strip l)) as [name|].
    + apply (IH b1 b2 (tl ++ [(Some name, [])])%list).
    + destruct tl as [|t tl].
      * apply (IH (b1 ++ [l])%list (b2 ++ [l])%list []).
      * change (append_to_last ((k, b1) :: t :: tl) l)
          with ((k, b1) :: append_to_last (t :: tl) l).
        change (append_to_last ((k, b2) :: t :: tl) l)
          with ((k, b2) :: append_to_last (t :: tl) l).
        apply IH.
Qed.

(** X7. Text before the first header is dropped whole: putting lines that
    open no section in front of a completion does not change what [parse]
    returns or raises. *)
Theorem parse_ignores_preamble (signature : Signature)
    (preamble completion : string) :
  only_LF_breaks preamble = true ->
  has_header_line preamble = false ->
  parse signature (preamble ++ NL ++ completion) = parse signature completion.
Proof.
  intros Ho Hh.
  assert (E : collect_fields signature
                (parse_sections (preamble ++ NL ++ completion))
              = collect_fields signature (parse_sections completion)).
  { unfold parse_sections, scan.
    rewrite (splitlines_append_NL _ _ Ho), fold_left_app.
    pose proof (scan_plain_lines _ [] None [] (no_header_preamble _ Ho Hh))
      as Hpre.
    simpl in Hpre. rewrite Hpre.
    destruct (scan_head_buffer (splitlines completion) None
                (splitlines (preamble ++ NL)) [] [])
      as (b1 & b2 & tl & -> & ->).
    reflexivity. }
  unfold parse. now rewrite E.
Qed.

Lemma parse_ignores_preamble_witness :
  parse qa_signature
    ("Sure, here is the answer:" ++ NL ++ marker "answer" ++ NL ++ "4")
  = Ok [("answer", "4")].
Proof.
  exact (parse_ignores_preamble qa_signature "Sure, here is the answer:"
           (marker "answer" ++ NL ++ "4") eq_refl eq_refl).
Defined.

(** *** More on [format_chat_turn] *)

Lemma filter_none {A} (f : A -> bool) (l : list A) :
  (forall x, In x l -> f x = false) -> filter f l = [].
Proof.
  induction l as [|x l IH]; simpl; intros H; [reflexivity|].
  rewrite (H x (or_introl eq_refl)). apply IH. intros y Hy. apply H. now right.
Qed.

(** X8. A turn without image fields needs nothing from outside: when no
    field name contains "image" and the values cover the names,
    [format_chat_turn] returns, in every world, the single text part with
    the block of the fields, each name once. *)
Theorem text_only_turn (w : world) (field_names : list string)
    (values : dict value) :
  (forall k, In k field_names -> contains "image" k = false) ->
  covers values field_names ->
  format_chat_turn w field_names values
  = Ok [Text (format_fields (lookup_all values (distinct field_names)))].
Proof.
  intros Hno Hc. rewrite (format_chat_turn_eq _ _ _ Hc).
  unfold supplied_images, non_image_fields.
  rewrite (filter_none _ _ Hno). simpl.
  rewrite forallb_filter_id; [reflexivity|].
  apply forallb_forall. intros k Hk. now rewrite (Hno k Hk).
Qed.

Lemma text_only_turn_witness :
  format_chat_turn without_pil ["question"; "hint"; "question"]
    [("hint", VNone); ("question", VStr "2+2?")]
  = Ok [Text (marker "question" ++ NL ++ "2+2?" ++ NL ++ NL
              ++ marker "hint" ++ NL ++ "None")].
Proof.
  refine (text_only_turn without_pil ["question"; "hint"; "question"]
            [("hint", VNone); ("question", VStr "2+2?")] _ _).
  - intros k [<-|[<-|[<-|[]]]]; reflexivity.
  - intros k [<-|[<-|[<-|[]]]]; simpl; tauto.
Defined.

Lemma encode_each_app (w : world) (pre post : list (string * value)) :
  encode_each w (pre ++ post)
  = (done <- encode_each w pre ;;
     tl <- encode_each w post ;; Ok (done ++ tl)%list).
Proof.
  induction pre as [|[k v] pre IH]; simpl.
  - now destruct (encode_each w post).
  - destruct (encode_image w v) as [b|e]; simpl; [|reflexivity].
    destruct (b =? ""); [reflexivity|]. rewrite IH.
    destruct (encode_each w pre) as [done|e]; simpl; [|reflexivity].
    now destruct (encode_each w post).
Qed.

(** X9. The images of a turn are encoded in field order and the first one
    that fails ends the call: an error raised while encoding it leaves
    [format_chat_turn] as it is, and an empty encoding raises the error
    that names the field. Later images are not looked at. *)
Theorem first_failing_image_ends_turn (w : world)
    (field_names : list string) (values : dict value)
    (pre post : list (string * value)) (k : string) (image : value)
    (done : list string) :
  covers values field_names ->
  supplied_images field_names values = (pre ++ (k, image) :: post)%list ->
  encode_each w pre = Ok done ->
  (forall e, encode_image w image = Raise e ->
             format_chat_turn w field_names values = Raise e)
  /\ (encode_image w image = Ok "" ->
      format_chat_turn w field_names values = Raise (ValueError_encode k)).
Proof.
  intros Hc Hs Hpre. rewrite (format_chat_turn_eq _ _ _ Hc), Hs.
  rewrite encode_each_app, Hpre. simpl.
  split; [intros e He | intros He]; now rewrite He.
Qed.

Lemma first_failing_image_ends_turn_witness :
  format_chat_turn offline ["a_image"; "b_image"; "c_image"]
    [("a_image", tiny_image); ("b_image", VStr "https://example.org/b.png");
     ("c_image", VOther true "3")]
  = Raise RequestError.
Proof.
  refine (proj1 (first_failing_image_ends_turn offline
                   ["a_image"; "b_image"; "c_image"]
                   [("a_image", tiny_image);
                    ("b_image", VStr "https://example.org/b.png");
                    ("c_image", VOther true "3")]
                   [("a_image", tiny_image)] [("c_image", VOther true "3")]
                   "b_image" (VStr "https://example.org/b.png")
                   ["iVBORw=="] _ eq_refl eq_refl) RequestError eq_refl).
  intros x [<-|[<-|[<-|[]]]]; simpl; tauto.
Defined.

Lemma encode_each_not_empty (w : world) (images : list (string * value))
    (b64s : list string) :
  encode_each w images = Ok b64s -> Forall (fun b => b <> "") b64s.
Proof.
  revert b64s. induction images as [|[k v] images IH]; simpl; intros b64s H.
  - injection H as <-. constructor.
  - destruct (encode_image w v) as [b|e]; simpl in H; [|discriminate].
    destruct (String.eqb_spec b "") as [E|N]; [discriminate|].
    destruct (encode_each w images) as [tl|e]; simpl in H; [|discriminate].
    injection H as <-. constructor; [exact N | now apply IH].
Qed.

(** X10. An image part never carries an empty payload: in what
    [format_chat_turn] returns, every image URL is the prefix followed by
    at least one character. *)
Theorem image_urls_carry_a_payload (w : world) (field_names : list string)
    (values : dict value) (parts : list part) (url : string) :
  format_chat_turn w field_names values = Ok parts ->
  In (ImageUrl url) parts ->
  exists image_base64,
    image_base64 <> "" /\ url = data_url_prefix ++ image_base64.
Proof.
  intros H Hin.
  destruct (format_chat_turn_ok_inv _ _ _ _ H) as (bs & He & ->).
  apply in_app_or in Hin as [Hin|[Hin|[]]]; [|discriminate].
  apply in_map_iff in Hin as (b & [= <-] & Hb).
  exists b. split; [|reflexivity].
  pose proof (encode_each_not_empty _ _ _ He) as Hall.
  rewrite Forall_forall in Hall. now apply Hall.
Qed.

Lemma image_urls_carry_a_payload_witness :
  exists image_base64,
    image_base64 <> ""
    /\ "data:image/jpeg;base64,iVBORw==" = data_url_prefix ++ image_base64.
Proof.
  refine (image_urls_carry_a_payload offline ["photo_image"]
            [("photo_image", tiny_image)]
            [ImageUrl "data:image/jpeg;base64,iVBORw=="; Text ""]
            "data:image/jpeg;base64,iVBORw==" eq_refl _).
  left. reflexivity.
Defined.

(** X11. Without PIL no image can be sent, file paths and URLs included:
    [encode_image] looks the name [Image] up before anything else, so a
    turn with at least one supplied image raises NameError. *)
Theorem no_image_without_pil (w : world) (field_names : list string)
    (values : dict value) :
  pil_installed w = false ->
  covers values field_names ->
  supplied_images field_names values <> [] ->
  format_chat_turn w field_names values = Raise NameError.
Proof.
  intros Hp Hc Hs. rewrite (format_chat_turn_eq _ _ _ Hc).
  destruct (supplied_images field_names values) as [|[k v] rest];
    [now elim Hs|].
  simpl. unfold encode_image. now rewrite Hp.
Qed.

Lemma no_image_without_pil_witness :
  format_chat_turn without_pil ["photo_image"]
    [("photo_image", VStr "photo.png")]
  = Raise NameError.
Proof.
  refine (no_image_without_pil without_pil ["photo_image"]
            [("photo_image", VStr "photo.png")] eq_refl _ _).
  - intros k [<-|[]]; simpl; tauto.
  - discriminate.
Defined.

Lemma encode_image_error (w : world) (image : value) (e : exn)
    (expected got : list string) :
  encode_image w image = Raise e -> e <> ValueError_expected expected got.
Proof.
  unfold encode_image, encode_image_base64_from_url.
  destruct (pil_installed w); simpl; [|intros [= <-]; discriminate].
  destruct image as [path|shown [png|]|truth shown];
    try (intros [= <-]; discriminate).
  destruct (isfile w path).
  - destruct (read_file w path); intros [= <-]; discriminate.
  - destruct (http_get w path); intros [= <-]; discriminate.
Qed.

Lemma encode_each_error (w : world) (images : list (string * value))
    (e : exn) (expected got : list string) :
  encode_each w images = Raise e -> e <> ValueError_expected expected got.
Proof.
  induction images as [|[k v] images IH]; simpl; [discriminate|].
  destruct (encode_image w v) as [b|e'] eqn:Hb; simpl.
  - destruct (b =? ""); [intros [= <-]; discriminate|].
    destruct (encode_each w images) as [tl|e'']; simpl; [discriminate|].
    intros [= <-]. now apply IH.
  - intros [= <-]. now apply (encode_image_error w v).
Qed.

(** X12. [format] supplies "completed" itself, so the assistant turn of a
    demo raises the missing-field error exactly when the demo lacks an
    output field other than "completed". *)
Theorem assistant_turn_needs_only_outputs (w : world)
    (signature : Signature) (demo : dict value) :
  let names := (keys (output_fields signature) ++ ["completed"])%list in
  let demo_ := dict_set demo "completed" (VStr "") in
  format_chat_turn w names demo_
  = Raise (ValueError_expected names (keys demo_))
  <-> ~ (forall k, In k (keys (output_fields signature)) ->
                   k = "completed" \/ In k (keys demo)).
Proof.
  intros names demo_.
  assert (Hcov : covers demo_ names <->
                 (forall k, In k (keys (output_fields signature)) ->
                            k = "completed" \/ In k (keys demo))).
  { unfold covers, names, demo_. split.
    - intros H k Hk.
      apply (proj1 (keys_dict_set demo "completed" (VStr "") k)).
      apply H, in_or_app. now left.
    - intros H k Hk.
      apply (proj2 (keys_dict_set demo "completed" (VStr "") k)).
      apply in_app_or in Hk as [Hk|[<-|[]]]; [now apply H | now left]. }
  split.
  - intros H Hall. apply Hcov in Hall.
    rewrite (format_chat_turn_eq _ _ _ Hall) in H.
    destruct (encode_each w _) as [bs|e] eqn:He; simpl in H; [discriminate|].
    injection H as ->.
    now apply (encode_each_error _ _ _ names (keys demo_) He).
  - intros H. apply format_chat_turn_uncovered. intros Hc. now apply H, Hcov.
Qed.

Lemma assistant_turn_needs_only_outputs_witness :
  format_chat_turn offline ["answer"; "completed"]
    (dict_set [("question", VStr "2+2?")] "completed" (VStr ""))
  = Raise (ValueError_expected ["answer"; "completed"]
             ["question"; "completed"]).
Proof.
  apply (proj2 (assistant_turn_needs_only_outputs offline qa_signature
                  [("question", VStr "2+2?")])).
  intros H. destruct (H "answer" (or_introl eq_refl)) as [E|[E|[]]];
    discriminate.
Defined.

(** *** More on [format] *)

Lemma format_demos_eq (w : world) (signature : Signature)
    (demos : list (dict value)) (messages : list message) :
  format_demos w signature demos messages
  = (turns <- traverse (demo_turns w signature) demos ;;
     Ok (messages ++ flat_map demo_messages turns)%list).
Proof.
  revert messages. induction demos as [|demo demos IH]; intros messages; simpl.
  - now rewrite app_nil_r.
  - unfold demo_turns at 1.
    destruct (format_chat_turn w (keys (input_fields signature)) demo)
      as [u|e]; simpl; [|reflexivity].
    destruct (format_chat_turn w _ (dict_set demo "completed" (VStr "")))
      as [a|e]; simpl; [|reflexivity].
    rewrite IH.
    destruct (traverse (demo_turns w signature) demos) as [turns|e]; simpl;
      [|reflexivity].
    now rewrite <- app_assoc.
Qed.

Lemma format_eq (w : world) (signature : Signature)
    (demos : list (dict value)) (inputs : dict value) :
  format w signature demos inputs
  = (turns <- traverse (demo_turns w signature) demos ;;
     u <- format_chat_turn w (keys (input_fields signature)) inputs ;;
     Ok (mk_message system (Plain (prepare_instructions signature))
         :: flat_map demo_messages turns ++ [mk_message user (Parts u)])%list).
Proof.
  unfold format. rewrite format_demos_eq.
  now destruct (traverse (demo_turns w signature) demos).
Qed.

Lemma traverse_ok_inv {A B} (f : A -> result B) (xs : list A) (ys : list B) :
  traverse f xs = Ok ys -> Forall2 (fun x y => f x = Ok y) xs ys.
Proof.
  revert ys. induction xs as [|x xs IH]; simpl; intros ys H.
  - injection H as <-. constructor.
  - destruct (f x) as [y|e] eqn:Hy; simpl in H; [|discriminate].
    destruct (traverse f xs) as [tl|e]; simpl in H; [|discriminate].
    injection H as <-. constructor; [exact Hy | now apply IH].
Qed.

Lemma traverse_app {A B} (f : A -> result B) (pre post : list A) :
  traverse f (pre ++ post)
  = (done <- traverse f pre ;; tl <- traverse f post ;; Ok (done ++ tl)%list).
Proof.
  induction pre as [|x pre IH]; simpl.
  - now destruct (traverse f post).
  - destruct (f x) as [y|e]; simpl; [|reflexivity]. rewrite IH.
    destruct (traverse f pre) as [done|e]; simpl; [|reflexivity].
    now destruct (traverse f post).
Qed.

Lemma demo_ready_turns (w : world) (signature : Signature)
    (demos : list (dict value)) :
  Forall (demo_ready w signature) demos ->
  exists turns, traverse (demo_turns w signature) demos = Ok turns.
Proof.
  induction 1 as [|demo demos [Hu Ha] _ [turns IH]]; simpl.
  - now exists [].
  - unfold demo_turns at 1.
    destruct (turn_ready_ok _ _ _ Hu) as [u ->].
    destruct (turn_ready_ok _ _ _ Ha) as [a ->]. simpl.
    rewrite IH. simpl. eexists. reflexivity.
Qed.

(** X13. What [format] returns, message by message: the system message
    holds [prepare_instructions(signature)] as plain text; then, for each
    demo in order, the user message holds the turn of the input fields on
    the demo and the assistant message the turn of the output fields and
    "completed" on the demo with [completed] set to the empty string; the
    last message holds the turn of the input fields on [inputs]. *)
Theorem format_messages_content (w : world) (signature : Signature)
    (demos : list (dict value)) (inputs : dict value)
    (messages : list message) :
  format w signature demos inputs = Ok messages ->
  exists turns u,
    Forall2
      (fun demo t =>
         format_chat_turn w (keys (input_fields signature)) demo = Ok (fst t)
         /\ format_chat_turn w
              (keys (output_fields signature) ++ ["completed"])%list
              (dict_set demo "completed" (VStr "")) = Ok (snd t))
      demos turns
    /\ format_chat_turn w (keys (input_fields signature)) inputs = Ok u
    /\ messages
       = (mk_message system (Plain (prepare_instructions signature))
          :: flat_map demo_messages turns ++ [mk_message user (Parts u)])%list.
Proof.
  rewrite format_eq. intros H.
  destruct (traverse (demo_turns w signature) demos) as [turns|e] eqn:Ht;
    simpl in H; [|discriminate].
  destruct (format_chat_turn w (keys (input_fields signature)) inputs)
    as [u|e] eqn:Hu; simpl in H; [|discriminate].
  injection H as <-. exists turns, u. repeat split.
  apply traverse_ok_inv in Ht.
  induction Ht as [|demo t demos turns Hd _ IH]; constructor; [|exact IH].
  unfold demo_turns in Hd.
  destruct (format_chat_turn w (keys (input_fields signature)) demo)
    as [u'|e]; simpl in Hd; [|discriminate].
  destruct (format_chat_turn w _ (dict_set demo "completed" (VStr "")))
    as [a|e]; simpl in Hd; [|discriminate].
  injection Hd as <-. now split.
Qed.

Lemma format_messages_content_witness :
  exists turns u,
    Forall2
      (fun demo t =>
         format_chat_turn offline ["question"] demo = Ok (fst t)
         /\ format_chat_turn offline ["answer"; "completed"]
              (dict_set demo "completed" (VStr "")) = Ok (snd t))
      [qa_demo] turns
    /\ format_chat_turn offline ["question"] qa_inputs = Ok u
    /\ [mk_message system (Plain (prepare_instructions qa_signature));
        mk_message user
          (Parts [Text (marker "question" ++ NL ++ "2+2?")]);
        mk_message assistant
          (Parts [Text (marker "answer" ++ NL ++ "4" ++ NL ++ NL
                        ++ marker "completed")]);
        mk_message user
          (Parts [Text (marker "question" ++ NL ++ "3+3?")])]
       = (mk_message system (Plain (prepare_instructions qa_signature))
          :: flat_map demo_messages turns ++ [mk_message user (Parts u)])%list.
Proof.
  refine (format_messages_content offline qa_signature [qa_demo] qa_inputs
            _ _).
  vm_compute. reflexivity.
Defined.

(** X14. [format] builds its turns in order, the two turns of each demo
    first and the turn of [inputs] last, and the first turn that raises
    ends the call with that error: nothing is returned for the turns
    built before, and the turns after it are not built. *)
Theorem first_failing_turn_ends_format (w : world) (signature : Signature)
    (ready : list (dict value)) (inputs : dict value) :
  Forall (demo_ready w signature) ready ->
  (forall demo later e,
      demo_turns w signature demo = Raise e ->
      format w signature (ready ++ demo :: later) inputs = Raise e)
  /\ (forall e,
        format_chat_turn w (keys (input_fields signature)) inputs = Raise e ->
        format w signature ready inputs = Raise e).
Proof.
  intros Hr. destruct (demo_ready_turns _ _ _ Hr) as [turns Ht]. split.
  - intros demo later e He. rewrite format_eq, traverse_app, Ht. simpl.
    now rewrite He.
  - intros e He. rewrite format_eq, Ht. simpl. now rewrite He.
Qed.

Lemma first_failing_turn_ends_format_witness :
  format offline qa_signature
    [qa_demo; [("question", VStr "1+1?")]; []] []
  = Raise (ValueError_expected ["answer"; "completed"]
             ["question"; "completed"]).
Proof.
  refine (proj1 (first_failing_turn_ends_format offline qa_signature
                   [qa_demo] [] _)
            [("question", VStr "1+1?")] [[]] _ eq_refl).
  constructor; [|constructor]. split; split; try reflexivity.
  - intros k [<-|[]]; simpl; tauto.
  - intros k [<-|[<-|[]]]; simpl; tauto.
Defined.

(** *** What [format] shows is what [parse] reads *)

Lemma parse_sections_with_completed (signature : Signature) (text : string)
    (fields : dict string) :
  parse_sections text
  = (None, "") :: as_sections (fields ++ [("completed", "")])%list ->
  NoDup (keys fields) ->
  ~ In "completed" (keys fields) ->
  (forall k, In k (keys (output_fields signature)) <-> In k (keys fields)) ->
  parse signature text = Ok fields.
Proof.
  intros Hs Hnd Hc Hkeys.
  assert (E : collect_fields signature (parse_sections text) = fields).
  { rewrite Hs. unfold collect_fields, as_sections. simpl fold_left.
    change (collect_section signature [] (None, ""))
      with (@nil (string * string)).
    rewrite map_app, fold_left_app. fold (as_sections fields).
    rewrite (collect_distinct signature fields []); [|exact Hnd|].
    - simpl. unfold collect_section. simpl.
      assert (Ho : dict_mem "completed" (output_fields signature) = false).
      { apply mem_false. intros H. now apply Hc, Hkeys. }
      rewrite Ho. now rewrite andb_false_r.
    - intros k Hk. apply mem_In, Hkeys, Hk. }
  unfold parse. rewrite E.
  assert (Hk : keys_eq (keys fields) (keys (output_fields signature)) = true).
  { apply keys_eq_iff. intros k. symmetry. apply Hkeys. }
  now rewrite Hk.
Qed.

Lemma plain_completed (fields : dict string) :
  Forall (fun kv => plain_field kv = true) fields ->
  Forall (fun kv => plain_field kv = true) (fields ++ [("completed", "")])%list.
Proof.
  intros H. apply Forall_app. split; [exact H|].
  constructor; [reflexivity | constructor].
Qed.

(** X15. The round trip with the end marker: when the block ends with the
    field "completed" with an empty value, as every assistant turn does,
    and "completed" is no output field, [parse] gives back the other fields
    (distinct names of word characters, plain values) and drops
    "completed". *)
Theorem parse_format_fields_with_completed (signature : Signature)
    (fields : dict string) :
  NoDup (keys fields) ->
  Forall (fun kv => plain_field kv = true) fields ->
  ~ In "completed" (keys fields) ->
  (forall k, In k (keys (output_fields signature)) <-> In k (keys fields)) ->
  parse signature
    (format_fields (as_values (fields ++ [("completed", "")])%list))
  = Ok fields.
Proof.
  intros Hnd Hplain Hc Hkeys.
  apply parse_sections_with_completed; try assumption.
  apply parse_sections_rendered. now apply plain_completed.
Qed.

Lemma parse_format_fields_with_completed_witness :
  parse two_fields_signature
    (format_fields (as_values (two_fields ++ [("completed", "")])%list))
  = Ok two_fields.
Proof.
  apply (parse_format_fields_with_completed two_fields_signature two_fields).
  - repeat constructor; simpl; intuition discriminate.
  - repeat constructor.
  - simpl. intuition discriminate.
  - intros k. simpl. tauto.
Defined.

Lemma distinct_NoDup_id (names : list string) :
  NoDup names -> distinct names = names.
Proof.
  induction 1 as [|k names Hk _ IH]; simpl; [reflexivity|].
  rewrite IH. f_equal. apply forallb_filter_id, forallb_forall.
  intros x Hx. destruct (String.eqb_spec x k) as [->|N]; [contradiction|].
  reflexivity.
Qed.

Lemma dict_get_dict_set {V} (d : dict V) (k x : string) (v : V) :
  dict_get (dict_set d k v) x
  = if String.eqb x k then Some v else dict_get d x.
Proof.
  induction d as [|[k' v'] d IH]; simpl.
  - reflexivity.
  - destruct (String.eqb_spec k k') as [->|N]; simpl.
    + now destruct (String.eqb x k').
    + rewrite IH. destruct (String.eqb_spec x k') as [->|N'];
        [|reflexivity].
      destruct (String.eqb_spec k' k) as [->|]; [now elim N | reflexivity].
Qed.

Lemma lookup_all_fields (values : dict value) (fields : dict string) :
  (forall k v, In (k, v) fields -> dict_get values k = Some (VStr v)) ->
  lookup_all values (keys fields) = as_values fields.
Proof.
  induction fields as [|[k v] fields IH]; intros H; [reflexivity|].
  unfold lookup_all in *. simpl.
  rewrite (H k v (or_introl eq_refl)). simpl. f_equal.
  apply IH. intros k' v' Hin. apply H. now right.
Qed.

(** X16. What [format] shows as a demo's assistant turn is a completion
    [parse] reads back: for a signature whose output field names are
    words without "image" and are not "completed", and a demo whose output
    values are plain texts, the assistant turn is one text part, and
    [parse] on that text returns the demo's output values. *)
Theorem assistant_turn_parses_back (w : world) (signature : Signature)
    (demo : dict value) (fields : dict string) :
  NoDup (keys (output_fields signature)) ->
  keys fields = keys (output_fields signature) ->
  (forall k, In k (keys fields) -> contains "image" k = false) ->
  ~ In "completed" (keys fields) ->
  Forall (fun kv => plain_field kv = true) fields ->
  (forall k v, In (k, v) fields -> dict_get demo k = Some (VStr v)) ->
  exists text,
    format_chat_turn w
      (keys (output_fields signature) ++ ["completed"])%list
      (dict_set demo "completed" (VStr ""))
    = Ok [Text text]
    /\ parse signature text = Ok fields.
Proof.
  intros Hnd Hkeys Himg Hc Hplain Hget. rewrite <- Hkeys in *.
  set (demo_ := dict_set demo "completed" (VStr "")).
  assert (Hget_ : forall k v,
             In (k, v) (fields ++ [("completed", "")])%list ->
             dict_get demo_ k = Some (VStr v)).
  { intros k v Hin. unfold demo_. rewrite dict_get_dict_set.
    apply in_app_or in Hin as [Hin|[[= <- <-]|[]]]; [|reflexivity].
    destruct (String.eqb_spec k "completed") as [->|N].
    - elim Hc. apply in_map_iff. now exists ("completed", v).
    - now apply Hget. }
  assert (Hnames : (keys fields ++ ["completed"])%list
                   = keys (fields ++ [("completed", "")])%list).
  { unfold keys. now rewrite map_app. }
  assert (Hcov : covers demo_ (keys fields ++ ["completed"])%list).
  { intros k Hk. rewrite Hnames in Hk.
    apply in_map_iff in Hk as ([k' v] & <- & Hin). simpl.
    apply Hget_ in Hin.
    destruct (dict_mem k' demo_) eqn:E; [now apply mem_In|].
    apply dict_get_None in E. congruence. }
  assert (Hno : forall k, In k (keys fields ++ ["completed"])%list ->
                          contains "image" k = false).
  { intros k Hk. apply in_app_or in Hk as [Hk|[<-|[]]];
      [now apply Himg | reflexivity]. }
  assert (Hnd' : NoDup (keys fields ++ ["completed"])%list).
  { apply NoDup_app; [exact Hnd | repeat constructor; simpl; tauto |].
    intros k Hk [<-|[]]. contradiction. }
  eexists. split.
  - rewrite (format_chat_turn_eq _ _ _ Hcov).
    unfold supplied_images, non_image_fields.
    rewrite (filter_none _ _ Hno). simpl.
    rewrite forallb_filter_id;
      [|apply forallb_forall; intros k Hk; now rewrite (Hno k Hk)].
    rewrite (distinct_NoDup_id _ Hnd'), Hnames.
    rewrite (lookup_all_fields _ _ Hget_). reflexivity.
  - apply parse_sections_with_completed; try assumption.
    + apply parse_sections_rendered. now apply plain_completed.
    + intros k. rewrite Hkeys. tauto.
Qed.

Lemma assistant_turn_parses_back_witness :
  exists text,
    format_chat_turn offline ["answer"; "completed"]
      (dict_set qa_demo "completed" (VStr ""))
    = Ok [Text text]
    /\ parse qa_signature text = Ok [("answer", "4")].
Proof.
  refine (assistant_turn_parses_back offline qa_signature qa_demo
            [("answer", "4")] _ eq_refl _ _ _ _).
  - repeat constructor. simpl. tauto.
  - intros k [<-|[]]. reflexivity.
  - simpl. intuition discriminate.
  - repeat constructor.
  - intros k v [[= <- <-]|[]]. reflexivity.
Defined.

Lemma plain_placeholder (k : string) :
  is_name k = true -> plain_field (k, "{" ++ k ++ "}") = true.
Proof.
  intros Hk. destruct (is_name_inv _ Hk) as [_ Hw].
  pose proof (all_word_no_breaks _ Hw) as Hb.
  assert (Hs : strip ("{" ++ k ++ "}") = "{" ++ k ++ "}").
  { unfold strip.
    change (lstrip ("{" ++ k ++ "}")) with ("{" ++ k ++ "}").
    rewrite <- append_assoc. now apply rstrip_append_fixed. }
  assert (Hn : no_breaks ("{" ++ k ++ "}") = true).
  { now rewrite !no_breaks_append, Hb. }
  assert (Hh : has_header_line ("{" ++ k ++ "}") = false).
  { unfold has_header_line. rewrite (splitlines_one _ Hn); [|discriminate].
    cbn [existsb]. now rewrite Hs. }
  unfold plain_field, plain_value. cbn [fst snd].
  now rewrite Hk, Hs, String.eqb_refl, (no_breaks_only_LF _ Hn), Hh.
Qed.

(** X17. The template [prepare_instructions] shows for the output fields
    is itself a completion [parse] accepts: for output field names made
    of word characters, parsing the block of the placeholders gives each
    output field its placeholder [{name}], in the order of the
    signature. *)
Theorem output_template_parses (signature : Signature) :
  NoDup (keys (output_fields signature)) ->
  (forall k, In k (keys (output_fields signature)) -> is_name k = true) ->
  parse signature (format_fields (placeholders (output_fields signature)))
  = Ok (map (fun k => (k, "{" ++ k ++ "}")) (keys (output_fields signature))).
Proof.
  intros Hnd Hnames.
  set (fields := map (fun k => (k, "{" ++ k ++ "}"))
                   (keys (output_fields signature))).
  assert (Hk : keys fields = keys (output_fields signature)).
  { unfold fields, keys. rewrite map_map. simpl. apply map_id. }
  assert (Hv : placeholders (output_fields signature) = as_values fields).
  { unfold placeholders, as_values, fields. now rewrite map_map. }
  assert (Hp : Forall (fun kv => plain_field kv = true) fields).
  { apply Forall_forall. intros [k v] Hin.
    apply in_map_iff in Hin as (k' & [= <- <-] & Hin).
    now apply plain_placeholder, Hnames. }
  rewrite Hv. unfold parse. rewrite (parse_sections_rendered _ Hp).
  unfold collect_fields. simpl fold_left.
  change (collect_section signature [] (None, ""))
    with (@nil (string * string)).
  rewrite collect_distinct; simpl.
  - rewrite Hk.
    assert (E : keys_eq (keys (output_fields signature))
                  (keys (output_fields signature)) = true)
      by (apply keys_eq_iff; tauto).
    now rewrite E.
  - now rewrite Hk.
  - intros k H. rewrite Hk in H. now apply mem_In.
Qed.

Lemma output_template_parses_witness :
  parse two_fields_signature
    (marker "answer" ++ NL ++ "{answer}" ++ NL ++ NL
     ++ marker "reasoning" ++ NL ++ "{reasoning}")
  = Ok [("answer", "{answer}"); ("reasoning", "{reasoning}")].
Proof.
  refine (output_template_parses two_fields_signature _ _).
  - repeat constructor; simpl; intuition discriminate.
  - intros k [<-|[<-|[]]]; reflexivity.
Defined.

(** *** What "Failed to encode image" means *)

Lemma b64encode_empty (payload : string) :
  b64encode payload = "" -> payload = "".
Proof.
  destruct payload as [|a [|b [|c rest]]]; [reflexivity | discriminate..].
Qed.

Lemma encode_image_empty (w : world) (image : value) :
  encode_image w image = Ok "" ->
  match image with
  | VStr path =>
      (isfile w path = true /\ read_file w path = Some "")
      \/ (isfile w path = false /\ http_get w path = Some "")
  | VImage _ png => png = Some ""
  | VOther _ _ => False
  end.
Proof.
  unfold encode_image, encode_image_base64_from_url.
  destruct (pil_installed w); simpl; [|discriminate].
  destruct image as [path|shown [png|]|truth shown]; try discriminate.
  - destruct (isfile w path).
    + destruct (read_file w path) as [bytes|]; [|discriminate].
      intros [= H]. apply b64encode_empty in H. subst. now left.
    + destruct (http_get w path) as [body|]; [|discriminate].
      intros [= H]. apply b64encode_empty in H. subst. now right.
  - intros [= H]. apply b64encode_empty in H. now subst.
Qed.

Lemma encode_image_never_names_field (w : world) (image : value)
    (k : string) :
  encode_image w image <> Raise (ValueError_encode k).
Proof.
  unfold encode_image, encode_image_base64_from_url.
  destruct (pil_installed w); simpl; [|discriminate].
  destruct image as [path|shown [png|]|truth shown]; try discriminate.
  destruct (isfile w path).
  - destruct (read_file w path); discriminate.
  - destruct (http_get w path); discriminate.
Qed.

Lemma encode_each_names_field (w : world) (images : list (string * value))
    (k : string) :
  encode_each w images = Raise (ValueError_encode k) ->
  exists image, In (k, image) images /\ encode_image w image = Ok "".
Proof.
  induction images as [|[k' v] images IH]; simpl; [discriminate|].
  destruct (encode_image w v) as [b|e] eqn:Hb; simpl.
  - destruct (String.eqb_spec b "") as [->|N].
    + intros [= <-]. exists v. split; [now left | exact Hb].
    + destruct (encode_each w images) as [tl|e]; simpl; [discriminate|].
      intros [= ->]. destruct (IH eq_refl) as (image & Hin & He).
      exists image. split; [now right | exact He].
  - intros [= ->]. now elim (encode_image_never_names_field w v k).
Qed.

(** X18. The error "Failed to encode image for field k" means that the
    image of field [k] has no bytes: [format_chat_turn] raises it only
    for a supplied image that is a PIL image saved as an empty buffer, an
    empty file, or a URL with an empty body. Every other encoding failure
    raises its own error. *)
Theorem encode_error_means_no_bytes (w : world) (field_names : list string)
    (values : dict value) (k : string) :
  format_chat_turn w field_names values = Raise (ValueError_encode k) ->
  exists image,
    In (k, image) (supplied_images field_names values)
    /\ match image with
       | VStr path =>
           (isfile w path = true /\ read_file w path = Some "")
           \/ (isfile w path = false /\ http_get w path = Some "")
       | VImage _ png => png = Some ""
       | VOther _ _ => False
       end.
Proof.
  intros H.
  assert (Hc : covers values field_names).
  { unfold format_chat_turn in H.
    destruct (forallb (fun k => dict_mem k values) field_names) eqn:E;
      [|discriminate].
    exact (proj1 (dict_mem_covers field_names values) E). }
  rewrite (format_chat_turn_eq _ _ _ Hc) in H.
  destruct (encode_each w (supplied_images field_names values))
    as [bs|e] eqn:He; simpl in H; [discriminate|].
  injection H as ->.
  destruct (encode_each_names_field _ _ _ He) as (image & Hin & Hi).
  exists image. split; [exact Hin | now apply encode_image_empty].
Qed.

Lemma encode_error_means_no_bytes_witness :
  exists image,
    In ("photo_image", image)
       (supplied_images ["photo_image"]
          [("photo_image", VImage "<PIL.Image.Image>" (Some ""))])
    /\ match image with
       | VStr path =>
           (isfile offline path = true /\ read_file offline path = Some "")
           \/ (isfile offline path = false /\ http_get offline path = Some "")
       | VImage _ png => png = Some ""
       | VOther _ _ => False
       end.
Proof.
  exact (encode_error_means_no_bytes offline ["photo_image"]
           [("photo_image", VImage "<PIL.Image.Image>" (Some ""))]
           "photo_image" eq_refl).
Defined.
